(** * python_llm_translator: the chunker, the prompt builder and the two
      translation drivers of [app.py], embedded and verified.

    Python strings are sequences of Unicode code points, so a text is a
    list of code points; [len] is the number of code points, as in Python.
    An [int] is a [Z].  A call that can raise returns an [option] or a sum;
    generators are modelled by the ordered list of events they produce
    (requests sent to the completion service, values yielded, files
    written). *)

From Stdlib Require Import ZArith NArith QArith List Ascii String DecimalString Lia.
From stdpp Require Import list gmap.

Local Open Scope Z_scope.

(** ** Texts *)

Abbreviation char := N (only parsing).
Abbreviation text := (list N) (only parsing).

(** A string literal of the source (all of them are ASCII). *)
Definition lit (s : string) : text := map N_of_ascii (list_ascii_of_string s).

(** The newline character, written [\n] in the source. *)
Definition nl : text := [10%N].

(** [len(s)] *)
Definition len (s : text) : Z := Z.of_nat (length s).

(** Truthiness of a string: [if s:] holds for a non-empty string. *)
Definition truthy (s : text) : bool :=
  match s with [] => false | _ :: _ => true end.

(** [str(n)] for a non-negative integer. *)
Definition str_of_nat (n : nat) : text :=
  lit (NilEmpty.string_of_uint (Nat.to_uint n)).

(** ** The pieces of the Python library the chunker calls *)

Module Py.

(** [s.startswith(p)] *)
Fixpoint startswith (s p : text) : bool :=
  match p, s with
  | [], _ => true
  | _ :: _, [] => false
  | a :: p', b :: s' => (a =? b)%N && startswith s' p'
  end.

(** [s.find(sep)]: the index of the leftmost occurrence, [None] for -1. *)
Fixpoint find (s sep : text) : option nat :=
  if startswith s sep then Some 0%nat
  else match s with
       | [] => None
       | _ :: s' => S <$> find s' sep
       end.

(** [s.split(sep)] for a non-empty [sep]: cut at the leftmost occurrence,
    go on after it.  Every round removes at least one character, so
    [length s] rounds are enough ([split_unfold] below).  Python raises
    [ValueError] for an empty separator; the source only passes the six
    non-empty constants of [separators]. *)
Fixpoint split_loop (rounds : nat) (s sep : text) : list text :=
  match find s sep with
  | None => [s]
  | Some i =>
      match rounds with
      | O => [s]
      | S r => take i s :: split_loop r (drop (i + length sep) s) sep
      end
  end.

Definition split (s sep : text) : list text := split_loop (length s) s sep.

(** [len(range(start, stop, step))] for a non-zero step. *)
Definition range_len (start stop step : Z) : Z :=
  if 0 <? step then
    if start <? stop then (stop - start - 1) / step + 1 else 0
  else
    if stop <? start then (start - stop - 1) / (- step) + 1 else 0.

(** [range(start, stop, step)]; [None] is the [ValueError] of a zero step. *)
Definition range (start stop step : Z) : option (list Z) :=
  if step =? 0 then None
  else Some (map (λ k : nat, start + Z.of_nat k * step)
                 (seq 0 (Z.to_nat (range_len start stop step)))).

(** A slice bound, clamped as Python does. *)
Definition slice_index (n i : Z) : Z :=
  if i <? 0 then Z.max (i + n) 0 else Z.min i n.

(** [s[i:j]] *)
Definition slice (s : text) (i j : Z) : text :=
  let a := slice_index (len s) i in
  let b := slice_index (len s) j in
  take (Z.to_nat (b - a)) (drop (Z.to_nat a) s).

(** [sep.join(parts)], used to state what [split] returns. *)
Fixpoint join (sep : text) (parts : list text) : text :=
  match parts with
  | [] => []
  | [p] => p
  | p :: ps => p ++ sep ++ join sep ps
  end.

End Py.

(** ** split_text_into_chunks *)

(** [separators = ["\n\n", "\n", ". ", "? ", "! ", " "]] *)
Definition separators : list text :=
  [nl ++ nl; nl; lit ". "; lit "? "; lit "! "; lit " "].

(** The body of the inner loop of the decomposition: what one segment
    contributes to [new_segments] for the separator [sep]. *)
Definition decompose_segment (max_chunk_size : Z) (sep seg : text) : list text :=
  if len seg <=? max_chunk_size then [seg]
  else
    let parts := Py.split seg sep in
    if (length parts =? 1)%nat then [seg]
    else
      let processed_parts := map (λ p, p ++ sep) (removelast parts) in
      processed_parts ++ [List.last parts []].

(** 1. Top-down decomposition: one pass per separator over all segments. *)
Definition decompose (max_chunk_size : Z) (t : text) : list text :=
  foldl (λ segments sep, flat_map (decompose_segment max_chunk_size sep) segments)
        [t] separators.

(** 2. The final hard split of one segment; [None] when [range] raises. *)
Definition hard_split_segment (max_chunk_size : Z) (seg : text) : option (list text) :=
  if max_chunk_size <? len seg then
    starts ← Py.range 0 (len seg) max_chunk_size;
    Some (map (λ i, Py.slice seg i (i + max_chunk_size)) starts)
  else Some [seg].

Definition hard_split (max_chunk_size : Z) (segments : list text) : option (list text) :=
  pieces ← mapM (hard_split_segment max_chunk_size) segments;
  Some (concat pieces).

(** 3. Bottom-up merge.  The state is [(chunks, current_chunk)]. *)
Definition merge_step (max_chunk_size : Z) (st : list text * text) (atom : text)
  : list text * text :=
  let '(chunks, current_chunk) := st in
  if len current_chunk + len atom <=? max_chunk_size then
    (chunks, current_chunk ++ atom)
  else
    (if truthy current_chunk then chunks ++ [current_chunk] else chunks, atom).

Definition merge_atoms (max_chunk_size : Z) (final_atoms : list text) : list text :=
  let '(chunks, current_chunk) := foldl (merge_step max_chunk_size) ([], []) final_atoms in
  if truthy current_chunk then chunks ++ [current_chunk] else chunks.

(** The whole function; [None] when it raises ([ValueError] from [range],
    for [max_chunk_size = 0] and a non-empty text). *)
Definition split_text_into_chunks (t : text) (max_chunk_size : Z) : option (list text) :=
  if truthy t then
    let segments := decompose max_chunk_size t in
    final_atoms ← hard_split max_chunk_size segments;
    Some (merge_atoms max_chunk_size final_atoms)
  else Some [].

(** No two neighbours fit together in one chunk. *)
Definition neighbours_exceed (M : Z) (chunks : list text) : Prop :=
  ∀ (i : nat) (c1 c2 : text),
    chunks !! i = Some c1 → chunks !! S i = Some c2 → M < len c1 + len c2.

(** What the loop of phase 3 keeps true of [(chunks, current_chunk)]. *)
Record merge_inv (M : Z) (atoms_seen : list text) (st : list text * text) : Prop := MergeInv {
  inv_concat : concat st.1 ++ st.2 = concat atoms_seen;
  inv_chunks : Forall (λ c, len c <= M) st.1;
  inv_current : len st.2 <= M;
  inv_neighbours : neighbours_exceed M st.1;
  inv_last : ∀ c, last st.1 = Some c → M < len c + len st.2
}.

(** ** create_formatted_prompt *)

Definition code_map : gmap (list N) (list N) :=
  list_to_map
    [ (lit "English", lit "en"); (lit "Korean", lit "ko");
      (lit "Japanese", lit "ja"); (lit "Chinese", lit "zh");
      (lit "Spanish", lit "es"); (lit "French", lit "fr");
      (lit "German", lit "de"); (lit "Russian", lit "ru") ].

(** [d.get(key, fallback)] *)
Definition dict_get (d : gmap (list N) (list N)) (key fallback : text) : text :=
  default fallback (d !! key).

Definition create_formatted_prompt (source_lang target_lang t : text) : text :=
  let source_code := dict_get code_map source_lang (lit "auto") in
  let target_code := dict_get code_map target_lang (lit "en") in
  if bool_decide (source_lang = lit "Auto Detect") then
    lit "You are a professional translator. "
    ++ lit "Identify the language of the following text and translate it into "
    ++ target_lang ++ lit " (" ++ target_code ++ lit "). "
    ++ lit "Your goal is to accurately convey the meaning and nuances of the original text while adhering to "
    ++ target_lang ++ lit " grammar, vocabulary, and cultural sensitivities." ++ nl
    ++ lit "Produce only the " ++ target_lang
    ++ lit " translation, without any additional explanations or commentary. Please translate the following text into "
    ++ target_lang ++ lit ":" ++ nl ++ nl
    ++ t
  else
    lit "You are a professional " ++ source_lang ++ lit " (" ++ source_code ++ lit ") to "
    ++ target_lang ++ lit " (" ++ target_code ++ lit ") translator. "
    ++ lit "Your goal is to accurately convey the meaning and nuances of the original "
    ++ source_lang ++ lit " text while adhering to " ++ target_lang
    ++ lit " grammar, vocabulary, and cultural sensitivities." ++ nl
    ++ lit "Produce only the " ++ target_lang
    ++ lit " translation, without any additional explanations or commentary. Please translate the following "
    ++ source_lang ++ lit " text into " ++ target_lang ++ lit ":" ++ nl ++ nl ++ nl
    ++ t.

(** The two templates without the chunk, to state what the builder
    returns: the instructions of the language-identification branch ... *)
Definition auto_detect_header (target_lang : text) : text :=
  let target_code := dict_get code_map target_lang (lit "en") in
  (lit "You are a professional translator. "
   ++ lit "Identify the language of the following text and translate it into "
   ++ target_lang ++ lit " (" ++ target_code ++ lit "). ")
  ++ (lit "Your goal is to accurately convey the meaning and nuances of the original text while adhering to "
      ++ target_lang ++ lit " grammar, vocabulary, and cultural sensitivities." ++ nl)
  ++ (lit "Produce only the " ++ target_lang
      ++ lit " translation, without any additional explanations or commentary. Please translate the following text into "
      ++ target_lang ++ lit ":" ++ nl ++ nl).

(** ... and those of the professional-translator branch. *)
Definition translator_header (source_lang target_lang : text) : text :=
  let source_code := dict_get code_map source_lang (lit "auto") in
  let target_code := dict_get code_map target_lang (lit "en") in
  (lit "You are a professional " ++ source_lang ++ lit " (" ++ source_code ++ lit ") to "
   ++ target_lang ++ lit " (" ++ target_code ++ lit ") translator. ")
  ++ (lit "Your goal is to accurately convey the meaning and nuances of the original "
      ++ source_lang ++ lit " text while adhering to " ++ target_lang
      ++ lit " grammar, vocabulary, and cultural sensitivities." ++ nl)
  ++ (lit "Produce only the " ++ target_lang
      ++ lit " translation, without any additional explanations or commentary. Please translate the following "
      ++ source_lang ++ lit " text into " ++ target_lang ++ lit ":" ++ nl ++ nl ++ nl).

(** ** The completion service and what a generator does *)

(** [DEFAULT_API_KEY] *)
Definition DEFAULT_API_KEY : text := lit "lm-studio".

Section Drivers.

(** The temperature is a float that the drivers hand to the service
    untouched; its type is left open. *)
Context {Temp : Type}.

(** The arguments of [client.chat.completions.create]: [messages] is always
    the single user-role message whose content is [req_prompt]. *)
Record request := Req {
  req_model : text;
  req_prompt : text;
  req_temperature : Temp;
  req_stream : bool
}.

(** What a [stream=True] call does: [create] raises (the text is [str(e)]),
    or it returns a finite stream of fragments, each with a content or
    [None], that ends normally ([ending = None]) or raises while it is
    consumed ([ending = Some] of [str(e)]). *)
Inductive stream_reply :=
| StreamRaises (e : text)
| StreamOf (deltas : list (option text)) (ending : option text).

(** What a [stream=False] call does: it raises, or it returns the message
    content of the first choice (which may be [None]). *)
Inductive block_reply :=
| BlockRaises (e : text)
| BlockOf (content : option text).

(** The client returned by [get_client(base_url, DEFAULT_API_KEY)].  The
    service is outside the program: its answer may depend on the number of
    calls the job made before and on the request. *)
Record client := Client {
  complete_streaming : nat → request → stream_reply;
  complete_blocking : nat → request → block_reply
}.

Inductive exception :=
| ValueError
| UnboundLocalError
| OSError (msg : text).

(** What a generator does, in order. *)
Inductive event :=
| Request (r : request)
| Yield (out progress : text)
| YieldFile (out : text) (output_path : option text)
| WriteFile (path content : text)
| Uncaught (e : exception).

(** ** translate_streaming *)

Section Streaming.

Variables (svc : client) (source_lang target_lang model_name : text)
          (temperature : Temp) (base_url : text) (total_chunks : nat).

(** The line appended by the [except] clause. *)
Definition stream_error_marker (i : nat) (e : text) : text :=
  nl ++ lit "[Error translating chunk " ++ str_of_nat (i + 1) ++ lit ": " ++ e ++ lit "]"
  ++ nl ++ nl
  ++ lit "Please ensure LM Studio is running and the server is started at "
  ++ base_url ++ lit ".".

(** The [yield] of the [except] clause. *)
Definition stream_error_view (full_translation : text) (i : nat) (e : text) : event :=
  Yield (full_translation ++ stream_error_marker i e)
        (lit "Error on chunk " ++ str_of_nat (i + 1)).

(** [for stream_chunk in response]: the final [chunk_accumulated] and the
    views yielded on the way. *)
Fixpoint consume_stream (full_translation progress_str chunk_accumulated : text)
    (deltas : list (option text)) : text * list event :=
  match deltas with
  | [] => (chunk_accumulated, [])
  | None :: rest => consume_stream full_translation progress_str chunk_accumulated rest
  | Some content :: rest =>
      let chunk_accumulated := chunk_accumulated ++ content in
      let '(final, views) :=
        consume_stream full_translation progress_str chunk_accumulated rest in
      (final, Yield (full_translation ++ chunk_accumulated) progress_str :: views)
  end.

Definition stream_request (chunk : text) : request :=
  Req model_name (create_formatted_prompt source_lang target_lang chunk) temperature true.

(** The two progress labels of chunk [i] (counted from 0). *)
Definition processing_label (i : nat) : text :=
  lit "Processing chunk " ++ str_of_nat (i + 1) ++ lit " of "
  ++ str_of_nat total_chunks ++ lit "...".

Definition completed_label (i : nat) : text :=
  lit "Completed " ++ str_of_nat (i + 1) ++ lit " of "
  ++ str_of_nat total_chunks ++ lit " chunks.".

(** [for i, chunk in enumerate(chunks)], from index [i] on. *)
Fixpoint stream_chunks (i : nat) (full_translation : text) (chunks : list text)
  : list event :=
  match chunks with
  | [] => []
  | chunk :: rest =>
      let progress_str := processing_label i in
      Request (stream_request chunk) ::
      match complete_streaming svc i (stream_request chunk) with
      | StreamRaises e => [stream_error_view full_translation i e]
      | StreamOf deltas ending =>
          let '(chunk_accumulated, views) :=
            consume_stream full_translation progress_str [] deltas in
          views ++
          match ending with
          | Some e => [stream_error_view full_translation i e]
          | None =>
              let full_translation := full_translation ++ chunk_accumulated ++ nl ++ nl in
              Yield full_translation (completed_label i)
              :: stream_chunks (S i) full_translation rest
          end
      end
  end.

(** *** Describing a streaming job *)

(** The error a call ends with, if any. *)
Definition stream_failure (r : stream_reply) : option text :=
  match r with
  | StreamRaises e => Some e
  | StreamOf _ ending => ending
  end.

(** The fragments of a list of deltas, put together. *)
Definition stream_text (deltas : list (option text)) : text :=
  concat (omap id deltas).

(** The whole translation a call delivers. *)
Definition stream_translation (i : nat) (chunk : text) : text :=
  match complete_streaming svc i (stream_request chunk) with
  | StreamRaises _ => []
  | StreamOf deltas _ => stream_text deltas
  end.

(** The translations of consecutive chunks, the first with index [i], each
    followed by a blank line. *)
Fixpoint stream_completed (i : nat) (chunks : list text) : text :=
  match chunks with
  | [] => []
  | chunk :: rest =>
      (stream_translation i chunk ++ nl ++ nl) ++ stream_completed (S i) rest
  end.

End Streaming.

(** [chunk_size] is the integer [int(chunk_size)].  When the splitter
    raises, the [except] clause reads [full_translation] before it is
    assigned, and that second exception leaves the generator. *)
Definition translate_streaming (svc : client)
    (t source_lang target_lang model_name : text) (temperature : Temp)
    (base_url : text) (chunk_size : Z) : list event :=
  if truthy t then
    match split_text_into_chunks t chunk_size with
    | None => [Uncaught UnboundLocalError]
    | Some chunks =>
        stream_chunks svc source_lang target_lang model_name temperature base_url
                      (length chunks) 0 [] chunks
    end
  else [Yield [] []].

(** ** translate_file_process *)

(** The [file_obj] argument: [None], a path, an object with a [name], or
    anything else. *)
Inductive file_arg :=
| FileNone
| FilePath (path : text)
| FileNamed (name : text)
| FileOther.

(** Reading and writing UTF-8 text files: a read gives the content or
    raises, a write succeeds ([None]) or raises. *)
Record filesystem := Filesystem {
  read_text : text → text + text;
  write_text : text → text → option text
}.

(** The functions of [os.path] the driver calls (they depend on the
    platform). *)
Record os_path := OsPath {
  basename : text → text;
  dirname : text → text;
  splitext : text → text * text;
  path_join : text → text → text
}.

Section Batch.

Variables (svc : client) (source_lang target_lang model_name : text)
          (temperature : Temp).

Definition batch_request (chunk : text) : request :=
  Req model_name (create_formatted_prompt source_lang target_lang chunk) temperature false.

(** The [error_msg] of the [except] clause inside the loop. *)
Definition batch_error_marker (i : nat) (e : text) : text :=
  nl ++ lit "[Error translating chunk " ++ str_of_nat (i + 1) ++ lit ": " ++ e ++ lit "]" ++ nl.

(** What one iteration appends to [full_translation]. *)
Definition batch_piece (i : nat) (chunk : text) : text :=
  match complete_blocking svc i (batch_request chunk) with
  | BlockOf content =>
      let chunk_translation := default [] content in
      chunk_translation ++ nl ++ nl
  | BlockRaises e => batch_error_marker i e
  end.

(** [for i, chunk in enumerate(progress.tqdm(chunks, ...))], from index [i]
    on: the final [full_translation] and the events. *)
Fixpoint file_chunks (i : nat) (full_translation : text) (chunks : list text)
  : text * list event :=
  match chunks with
  | [] => (full_translation, [])
  | chunk :: rest =>
      let full_translation := full_translation ++ batch_piece i chunk in
      let '(final, events) := file_chunks (S i) full_translation rest in
      (final, Request (batch_request chunk) :: YieldFile full_translation None :: events)
  end.

(** What consecutive iterations append, the first with index [i]. *)
Fixpoint batch_completed (i : nat) (chunks : list text) : text :=
  match chunks with
  | [] => []
  | chunk :: rest => batch_piece i chunk ++ batch_completed (S i) rest
  end.

Definition output_path_of (os : os_path) (file_path : text) : text :=
  let original_filename := basename os file_path in
  let '(name, ext) := splitext os original_filename in
  let output_filename := lit "translated_" ++ name ++ ext in
  path_join os (dirname os file_path) output_filename.

Definition translate_file_from_path (fs : filesystem) (os : os_path)
    (file_path : text) (chunk_size : Z) : list event :=
  match read_text fs file_path with
  | inr e => [YieldFile (lit "Error reading file: " ++ e) None]
  | inl t =>
      match split_text_into_chunks t chunk_size with
      | None => [Uncaught ValueError]
      | Some chunks =>
          let total_chunks := length chunks in
          let '(full_translation, events) := file_chunks 0 [] chunks in
          let output_path := output_path_of os file_path in
          YieldFile (lit "Starting translation of " ++ str_of_nat total_chunks
                     ++ lit " chunks...") None
          :: events
          ++ match write_text fs output_path full_translation with
             | Some e => [Uncaught (OSError e)]
             | None => [WriteFile output_path full_translation;
                        YieldFile full_translation (Some output_path)]
             end
      end
  end.

End Batch.

Definition translate_file_process (fs : filesystem) (os : os_path) (svc : client)
    (file_obj : file_arg) (source_lang target_lang model_name : text)
    (temperature : Temp) (chunk_size : Z) : list event :=
  match file_obj with
  | FileNone => [YieldFile (lit "Please upload a file first.") None]
  | FilePath file_path | FileNamed file_path =>
      translate_file_from_path svc source_lang target_lang model_name temperature
                               fs os file_path chunk_size
  | FileOther => [YieldFile (lit "Error: Invalid file object received.") None]
  end.

(** ** Reading a run *)

(** The requests of a run, in the order they were sent. *)
Definition requests_of (events : list event) : list request :=
  omap (λ ev, match ev with Request r => Some r | _ => None end) events.

(** The texts a run showed, in order. *)
Definition outputs_of (events : list event) : list text :=
  omap (λ ev, match ev with
              | Yield out _ | YieldFile out _ => Some out
              | _ => None
              end) events.


End Drivers.

Arguments request : clear implicits.
Arguments client : clear implicits.
Arguments event : clear implicits.

(** ** save_translation_to_file *)



(** ** Vocabulary for the properties *)


(** The consecutive slices of [m] characters of a text; the last one may
    be shorter. *)
Definition fixed_slices (m : nat) (t : text) : list text :=
  map (λ k, take m (drop (k * m) t)) (seq 0 ((length t + m - 1) / m)).

(** Every text of the list is the beginning of the next one. *)
Definition grows (views : list text) : Prop :=
  ∀ (k : nat) (a b : text), views !! k = Some a → views !! S k = Some b → a `prefix_of` b.

(** The character does not occur in the text. *)
Definition lacks (c : N) (t : text) : Prop := c ∉ t.


(** ** Concrete services and files for the scenarios *)

(** The default of the temperature slider. *)
Definition sample_temperature : Q := Qmake 3 10.


(** A service that streams the first translation in two fragments (and a
    fragment without content), and breaks off inside the second one. *)
Definition breaks_midstream : client Q :=
  Client
    (λ n _, match n with
            | O => StreamOf [Some (lit "Hel"); None; Some (lit "lo")] None
            | S O => StreamOf [Some (lit "par"); Some (lit "tial")] (Some (lit "timed out"))
            | _ => StreamOf [Some (lit "ok")] None
            end)
    (λ _ _, BlockOf None).

(** A service that always answers [X], in one fragment or one message. *)
Definition answers_X : client Q :=
  Client (λ _ _, StreamOf [Some (lit "X")] None) (λ _ _, BlockOf (Some (lit "X"))).

(** A service whose second blocking call fails. *)
Definition fails_second : client Q :=
  Client
    (λ _ _, StreamRaises (lit "Connection error."))
    (λ n _, match n with
            | O => BlockOf (Some (lit "uno"))
            | S O => BlockRaises (lit "Connection error.")
            | _ => BlockOf (Some (lit "tres"))
            end).

(** The streaming side of [breaks_midstream] with the blocking side of
    [fails_second]. *)
Definition both_modes : client Q :=
  Client (complete_streaming breaks_midstream) (complete_blocking fails_second).

(** A file system where every file reads as [content] and every write
    succeeds. *)
Definition reads_as (content : text) : filesystem :=
  Filesystem (λ _, inl content) (λ _ _, None).


(** [os.path] on bare file names without directory and extension. *)
Definition bare_names : os_path :=
  OsPath (λ p, p) (λ _, []) (λ p, (p, [])) (λ d f, d ++ f).

(** * Properties *)

(** ** The chunker on small inputs *)

Example split_paragraphs :
  split_text_into_chunks (lit "aaa" ++ nl ++ nl ++ lit "bbb") 6
  = Some [lit "aaa" ++ nl ++ nl; lit "bbb"].
Proof. vm_compute. reflexivity. Qed.

Example split_no_separator :
  split_text_into_chunks (lit "abcdefgh") 3 = Some [lit "abc"; lit "def"; lit "gh"].
Proof. vm_compute. reflexivity. Qed.

Example split_words :
  split_text_into_chunks (lit "aa bb cc") 3 = Some [lit "aa "; lit "bb "; lit "cc"].
Proof. vm_compute. reflexivity. Qed.

Example split_zero_raises :
  split_text_into_chunks (lit "ab") 0 = None.
Proof. vm_compute. reflexivity. Qed.

Example split_negative_loses_text :
  split_text_into_chunks (lit "ab") (-1) = Some [].
Proof. vm_compute. reflexivity. Qed.

(** ** The Python library functions *)

Section SplitFacts.

Lemma len_nonneg (s : text) : 0 <= len s.
Proof. unfold len. lia. Qed.

Lemma len_app (s r : text) : len (s ++ r) = len s + len r.
Proof. unfold len. rewrite length_app. lia. Qed.

Lemma truthy_true (s : text) : truthy s = true ↔ s ≠ [].
Proof. destruct s; simpl; split; congruence. Qed.

Lemma truthy_len (s : text) : truthy s = true ↔ 0 < len s.
Proof. destruct s; unfold len; simpl; split; (congruence || lia). Qed.

Lemma startswith_app (s p : text) :
  Py.startswith s p = true → s = p ++ drop (length p) s.
Proof.
  revert s. induction p as [|a p IH]; intros [|b s]; simpl; try done.
  intros [Hab Hs]%andb_prop. apply N.eqb_eq in Hab as ->.
  f_equal. by apply IH.
Qed.

Lemma startswith_nil (p : text) : p ≠ [] → Py.startswith [] p = false.
Proof. by destruct p. Qed.

(** Where [find] reports an occurrence there is one. *)
Lemma find_nil (sep : text) :
  Py.find [] sep = if Py.startswith [] sep then Some 0%nat else None.
Proof. done. Qed.

Lemma find_cons (c : N) (s sep : text) :
  Py.find (c :: s) sep =
    if Py.startswith (c :: s) sep then Some 0%nat else S <$> Py.find s sep.
Proof. done. Qed.

(** Where [find] reports an occurrence there is one. *)
Lemma find_Some (s sep : text) (i : nat) :
  Py.find s sep = Some i →
  s = take i s ++ sep ++ drop (i + length sep) s.
Proof.
  revert i. induction s as [|c s IH]; intros i.
  - rewrite find_nil. destruct (Py.startswith [] sep) eqn:E; [|done].
    intros [= <-]. by apply startswith_app in E.
  - rewrite find_cons. destruct (Py.startswith (c :: s) sep) eqn:E.
    + intros [= <-]. by apply startswith_app in E.
    + destruct (Py.find s sep) as [j|] eqn:F; [|done].
      intros [= <-]. simpl. f_equal. by apply IH.
Qed.

Lemma find_Some_length (s sep : text) (i : nat) :
  Py.find s sep = Some i → (i + length sep ≤ length s)%nat.
Proof.
  intros H. pose proof (find_Some _ _ _ H) as E.
  apply (f_equal length) in E. rewrite !length_app, length_take in E.
  assert (i ≤ length s)%nat; [|lia].
  clear E. revert i H. induction s as [|c s IH]; intros i.
  - rewrite find_nil. destruct (Py.startswith [] sep); [|done]. intros [= <-]. lia.
  - rewrite find_cons. destruct (Py.startswith (c :: s) sep); [intros [= <-]; lia|].
    destruct (Py.find s sep) as [j|]; [|done].
    intros [= <-]. specialize (IH j eq_refl). simpl. lia.
Qed.

(** The number of rounds does not matter once it reaches the length. *)
Lemma split_loop_rounds (sep : text) (r1 r2 : nat) (s : text) :
  sep ≠ [] → (length s ≤ r1)%nat → (length s ≤ r2)%nat →
  Py.split_loop r1 s sep = Py.split_loop r2 s sep.
Proof.
  intros Hsep. revert r2 s. induction r1 as [|r1 IH]; intros r2 s H1 H2.
  - destruct s; [|simpl in H1; lia].
    destruct r2; unfold Py.split_loop; rewrite find_nil, startswith_nil; done.
  - destruct r2 as [|r2].
    + destruct s; [|simpl in H2; lia].
      unfold Py.split_loop; rewrite find_nil, startswith_nil; done.
    + simpl. destruct (Py.find s sep) as [i|] eqn:F; [|done].
      f_equal. pose proof (find_Some_length _ _ _ F).
      assert (0 < length sep)%nat by (destruct sep; [done|simpl; lia]).
      apply IH; rewrite length_drop; lia.
Qed.

(** [split] cuts at the leftmost occurrence and goes on after it. *)
Lemma split_unfold (s sep : text) :
  sep ≠ [] →
  Py.split s sep =
    match Py.find s sep with
    | None => [s]
    | Some i => take i s :: Py.split (drop (i + length sep) s) sep
    end.
Proof.
  intros Hsep. unfold Py.split at 1.
  destruct (Py.find s sep) as [i|] eqn:F.
  - pose proof (find_Some_length _ _ _ F).
    assert (0 < length sep)%nat by (destruct sep; [done|simpl; lia]).
    destruct (length s) as [|n] eqn:L; [lia|].
    simpl. rewrite F. f_equal. unfold Py.split.
    apply split_loop_rounds; [done| |done]. rewrite length_drop. lia.
  - destruct (length s); simpl; by rewrite F.
Qed.

Lemma split_nonempty (s sep : text) : Py.split s sep ≠ [].
Proof.
  unfold Py.split. destruct (length s); simpl; destruct (Py.find s sep); done.
Qed.

(** Joining the parts with the separator gives the string back. *)
Lemma join_split (s sep : text) : sep ≠ [] → Py.join sep (Py.split s sep) = s.
Proof.
  intros Hsep.
  induction s as [s IH] using (induction_ltof1 _ (@length N)). unfold ltof in IH.
  rewrite split_unfold by done.
  destruct (Py.find s sep) as [i|] eqn:F; [|done].
  pose proof (find_Some_length _ _ _ F).
  assert (0 < length sep)%nat by (destruct sep; [done|simpl; lia]).
  pose proof (split_nonempty (drop (i + length sep) s) sep) as Hne.
  cbn [Py.join]. destruct (Py.split (drop (i + length sep) s) sep) eqn:E; [done|].
  rewrite <- E, IH by (rewrite length_drop; lia).
  symmetry. by apply find_Some.
Qed.

(** Putting the separator back after every part but the last is [join]. *)
Lemma reattach_join (sep : text) (parts : list text) :
  parts ≠ [] →
  concat (map (λ p, p ++ sep) (removelast parts) ++ [List.last parts []])
  = Py.join sep parts.
Proof.
  induction parts as [|p parts IH]; [done|]. intros _.
  destruct parts as [|q parts]; [simpl; by rewrite app_nil_r|].
  change (removelast (p :: q :: parts)) with (p :: removelast (q :: parts)).
  change (List.last (p :: q :: parts) []) with (List.last (q :: parts) []).
  cbn [map app concat Py.join]. rewrite IH by done. by rewrite <- app_assoc.
Qed.

End SplitFacts.

(** ** The three phases of the chunker *)

Section ChunkerPhases.

Variable M : Z.

Lemma separators_nonempty : Forall (λ sep : text, sep ≠ []) separators.
Proof. unfold separators. repeat constructor; done. Qed.

(** Phase 1 loses and adds nothing. *)
Lemma decompose_segment_concat (sep seg : text) :
  sep ≠ [] → concat (decompose_segment M sep seg) = seg.
Proof.
  intros Hsep. unfold decompose_segment.
  destruct (len seg <=? M); [simpl; by rewrite app_nil_r|].
  destruct (length (Py.split seg sep) =? 1)%nat; [simpl; by rewrite app_nil_r|].
  rewrite reattach_join by apply split_nonempty. by apply join_split.
Qed.

Lemma decompose_pass_concat (sep : text) (segments : list text) :
  sep ≠ [] → concat (flat_map (decompose_segment M sep) segments) = concat segments.
Proof.
  intros Hsep. induction segments as [|seg segments IH]; [done|].
  simpl. by rewrite concat_app, IH, decompose_segment_concat.
Qed.

Lemma decompose_concat (t : text) : concat (decompose M t) = t.
Proof.
  unfold decompose.
  assert (∀ seps segments,
    Forall (λ sep : text, sep ≠ []) seps →
    concat (foldl (λ segments sep, flat_map (decompose_segment M sep) segments)
                  segments seps) = concat segments) as H.
  { induction seps as [|sep seps IH]; intros segments Hs; [done|].
    inversion_clear Hs. simpl. rewrite IH by done. by apply decompose_pass_concat. }
  rewrite H by apply separators_nonempty. simpl. by rewrite app_nil_r.
Qed.

Hypothesis M_pos : 1 <= M.

(** A slice of the hard split, in terms of [take] and [drop]. *)
Lemma slice_step (seg : text) (k : nat) :
  Py.slice seg (0 + Z.of_nat k * M) (0 + Z.of_nat k * M + M)
  = take (Z.to_nat M) (drop (k * Z.to_nat M) seg).
Proof.
  unfold Py.slice, Py.slice_index, len.
  assert (0 <= Z.of_nat k * M) by lia.
  destruct (Z.ltb_spec (0 + Z.of_nat k * M) 0); [lia|].
  destruct (Z.ltb_spec (0 + Z.of_nat k * M + M) 0); [lia|].
  destruct (Z.le_gt_cases (Z.of_nat (length seg)) (Z.of_nat k * M)).
  - rewrite !Z.min_r by lia. rewrite Z.sub_diag. simpl.
    rewrite (drop_ge seg (k * Z.to_nat M)) by nia. by rewrite take_nil.
  - rewrite (Z.min_l (0 + _ * _)) by lia.
    replace (Z.to_nat (0 + Z.of_nat k * M)) with (k * Z.to_nat M)%nat by nia.
    destruct (Z.le_gt_cases (Z.of_nat (length seg)) (Z.of_nat k * M + M)).
    + rewrite Z.min_r by lia.
      rewrite !take_ge; [done| |]; rewrite length_drop; nia.
    + rewrite Z.min_l by lia. f_equal. lia.
Qed.

Lemma slices_concat (seg : text) (n : nat) :
  concat (map (λ i, Py.slice seg i (i + M))
              (map (λ k : nat, 0 + Z.of_nat k * M) (seq 0 n)))
  = take (n * Z.to_nat M) seg.
Proof.
  induction n as [|n IH]; [done|].
  rewrite seq_S, !map_app, concat_app, IH. simpl.
  rewrite slice_step, app_nil_r, take_take_drop. f_equal. lia.
Qed.

Lemma slice_bounded (seg : text) (i : Z) : 0 <= i → len (Py.slice seg i (i + M)) <= M.
Proof.
  intros Hi. unfold Py.slice, Py.slice_index, len.
  destruct (Z.ltb_spec i 0); [lia|]. destruct (Z.ltb_spec (i + M) 0); [lia|].
  rewrite length_take. lia.
Qed.

(** Phase 2 never raises for a positive limit, loses nothing and leaves
    only atoms within the limit. *)
Lemma hard_split_segment_spec (seg : text) :
  ∃ atoms, hard_split_segment M seg = Some atoms
           ∧ concat atoms = seg
           ∧ Forall (λ a, len a <= M) atoms.
Proof.
  unfold hard_split_segment. destruct (Z.ltb_spec M (len seg)) as [Hlt|Hge].
  - unfold Py.range. destruct (Z.eqb_spec M 0); [lia|]. simpl.
    eexists; split; [done|]. split.
    + rewrite slices_concat. apply take_ge.
      unfold Py.range_len. destruct (Z.ltb_spec 0 M); [|lia].
      destruct (Z.ltb_spec 0 (len seg)); [|lia]. unfold len in *.
      rewrite Z.sub_0_r.
      pose proof (Z.div_mod (Z.of_nat (length seg) - 1) M ltac:(lia)).
      pose proof (Z.mod_pos_bound (Z.of_nat (length seg) - 1) M ltac:(lia)).
      assert (0 <= (Z.of_nat (length seg) - 1) / M) by (apply Z.div_pos; lia).
      nia.
    + rewrite !Forall_map. apply Forall_forall. intros k _. simpl.
      apply slice_bounded. lia.
  - eexists; split; [done|]. split; [simpl; by rewrite app_nil_r|].
    constructor; [lia|constructor].
Qed.

Lemma hard_split_spec (segments : list text) :
  ∃ atoms, hard_split M segments = Some atoms
           ∧ concat atoms = concat segments
           ∧ Forall (λ a, len a <= M) atoms.
Proof.
  unfold hard_split. induction segments as [|seg segments IH].
  - exists []. by repeat split.
  - destruct IH as (atoms & E & Hc & Hb).
    destruct (hard_split_segment_spec seg) as (a1 & E1 & Hc1 & Hb1).
    destruct (mapM (hard_split_segment M) segments) as [pieces|] eqn:Em; [|done].
    simpl in E. injection E as <-.
    exists (a1 ++ concat pieces). cbn [mapM]. rewrite E1. simpl. rewrite Em. simpl.
    split; [done|]. split.
    + by rewrite concat_app, Hc1, Hc.
    + by apply Forall_app.
Qed.

End ChunkerPhases.

(** ** The merge *)

Section Merge.

Variable M : Z.

Lemma neighbours_snoc (chunks : list text) (c : text) :
  neighbours_exceed M chunks →
  (∀ b, last chunks = Some b → M < len b + len c) →
  neighbours_exceed M (chunks ++ [c]).
Proof.
  intros Hn Hl i c1 c2 H1 H2.
  apply lookup_app_Some in H2 as [H2|[Hlen H2]].
  - apply lookup_app_Some in H1 as [H1|[Hlen1 _]].
    + by eapply Hn.
    + apply lookup_lt_Some in H2. lia.
  - apply list_lookup_singleton_Some in H2 as [Hi ->].
    apply lookup_app_Some in H1 as [H1|[Hlen1 _]]; [|lia].
    apply Hl. rewrite last_lookup. rewrite <- H1. f_equal. lia.
Qed.

Lemma merge_inv_init : 0 <= M → merge_inv M [] ([], []).
Proof.
  intros HM. split; simpl; done.
Qed.

Lemma merge_step_inv (seen : list text) (st : list text * text) (atom : text) :
  len atom <= M →
  merge_inv M seen st → merge_inv M (seen ++ [atom]) (merge_step M st atom).
Proof.
  intros Ha [Hc Hb Hcur Hn Hl]. destruct st as [chunks cur]. simpl in *.
  unfold merge_step. destruct (Z.leb_spec (len cur + len atom) M) as [Hfit|Hover].
  - split; simpl; try done.
    + rewrite concat_app, <- Hc. simpl. by rewrite app_nil_r, app_assoc.
    + by rewrite len_app.
    + intros c Hlast. rewrite len_app. specialize (Hl c Hlast).
      pose proof (len_nonneg atom). lia.
  - assert (truthy cur = true) as ->.
    { apply truthy_len. lia. }
    split; simpl.
    + rewrite !concat_app, <- Hc. simpl. by rewrite !app_nil_r.
    + apply Forall_app. split; [done|]. by constructor.
    + done.
    + by apply neighbours_snoc.
    + intros c. rewrite last_snoc. intros [= <-]. lia.
Qed.

Lemma merge_loop_inv (atoms seen : list text) (st : list text * text) :
  Forall (λ a, len a <= M) atoms →
  merge_inv M seen st →
  merge_inv M (seen ++ atoms) (foldl (merge_step M) st atoms).
Proof.
  revert seen st. induction atoms as [|a atoms IH]; intros seen st Ha Hinv.
  - by rewrite app_nil_r.
  - inversion_clear Ha. simpl.
    replace (seen ++ a :: atoms) with ((seen ++ [a]) ++ atoms) by by rewrite <- app_assoc.
    apply IH; [done|]. by apply merge_step_inv.
Qed.

(** Phase 3 keeps the text, the bound, and closes a chunk only when the
    next atom does not fit. *)
Lemma merge_atoms_spec (atoms : list text) :
  0 <= M → Forall (λ a, len a <= M) atoms →
  concat (merge_atoms M atoms) = concat atoms
  ∧ Forall (λ c, len c <= M) (merge_atoms M atoms)
  ∧ neighbours_exceed M (merge_atoms M atoms).
Proof.
  intros HM Ha. unfold merge_atoms.
  pose proof (merge_loop_inv atoms [] ([], []) Ha (merge_inv_init HM)) as Hinv.
  destruct (foldl (merge_step M) ([], []) atoms) as [chunks cur].
  destruct Hinv as [Hc Hb Hcur Hn Hl]. simpl in *.
  destruct cur as [|x cur]; simpl.
  - rewrite app_nil_r in Hc. done.
  - split; [|split].
    + rewrite concat_app. simpl. by rewrite app_nil_r.
    + apply Forall_app. split; [done|]. by constructor.
    + by apply neighbours_snoc.
Qed.

End Merge.

(** What the chunker returns for a positive limit. *)
Lemma split_text_into_chunks_spec (t : text) (M : Z) :
  1 <= M →
  ∃ chunks, split_text_into_chunks t M = Some chunks
            ∧ concat chunks = t
            ∧ Forall (λ c, len c <= M) chunks
            ∧ neighbours_exceed M chunks.
Proof.
  intros HM. unfold split_text_into_chunks. destruct t as [|x t].
  - exists []. repeat split; done.
  - cbn [truthy].
    destruct (hard_split_spec M HM (decompose M (x :: t))) as (atoms & E & Hc & Hb).
    rewrite E. simpl.
    destruct (merge_atoms_spec M atoms ltac:(lia) Hb) as (Hm1 & Hm2 & Hm3).
    eexists; split; [done|]. rewrite Hm1, Hc, decompose_concat. done.
Qed.

(** ** The chunker's contract *)

(** C1. For every text and every limit of at least 1 the chunker returns,
    and the chunks it returns, put together in order, are the text:
    nothing lost, nothing added, separators kept. *)
Theorem chunks_rebuild_text (t : text) (M : Z) :
  1 <= M →
  ∃ chunks, split_text_into_chunks t M = Some chunks ∧ concat chunks = t.
Proof.
  intros HM. destruct (split_text_into_chunks_spec t M HM) as (chunks & E & Hc & _).
  by exists chunks.
Qed.

Lemma chunks_rebuild_text_witness :
  1 <= 3 ∧ ∃ chunks, split_text_into_chunks (lit "aa bb cc") 3 = Some chunks
                     ∧ concat chunks = lit "aa bb cc".
Proof. split; [lia|]. apply (chunks_rebuild_text (lit "aa bb cc") 3). lia. Defined.

(** C2. For every text and every limit of at least 1 the chunker returns,
    and no chunk it returns is longer than the limit, whatever the text
    (a run without separator is cut by the hard split). *)
Theorem chunks_within_limit (t : text) (M : Z) :
  1 <= M →
  ∃ chunks, split_text_into_chunks t M = Some chunks
            ∧ Forall (λ c, len c <= M) chunks.
Proof.
  intros HM. destruct (split_text_into_chunks_spec t M HM) as (chunks & E & _ & Hb & _).
  by exists chunks.
Qed.

Lemma chunks_within_limit_witness :
  1 <= 3 ∧ ∃ chunks, split_text_into_chunks (lit "abcdefgh") 3 = Some chunks
                     ∧ Forall (λ c, len c <= 3) chunks.
Proof. split; [lia|]. apply (chunks_within_limit (lit "abcdefgh") 3). lia. Defined.

(** C6. For every text and every limit of at least 1, any two consecutive
    chunks returned are together longer than the limit: they could not
    have been merged. *)
Theorem neighbours_cannot_merge (t : text) (M : Z) :
  1 <= M →
  ∃ chunks, split_text_into_chunks t M = Some chunks
            ∧ ∀ (i : nat) (c1 c2 : text),
                chunks !! i = Some c1 → chunks !! S i = Some c2 →
                M < len c1 + len c2.
Proof.
  intros HM. destruct (split_text_into_chunks_spec t M HM) as (chunks & E & _ & _ & Hn).
  by exists chunks.
Qed.

Lemma neighbours_cannot_merge_witness :
  1 <= 3 ∧ ∃ chunks, split_text_into_chunks (lit "aa bb cc") 3 = Some chunks
                     ∧ ∀ (i : nat) (c1 c2 : text),
                         chunks !! i = Some c1 → chunks !! S i = Some c2 →
                         3 < len c1 + len c2.
Proof. split; [lia|]. apply (neighbours_cannot_merge (lit "aa bb cc") 3). lia. Defined.

(** Segments within the limit pass every phase unchanged. *)
Lemma decompose_small (t : text) (M : Z) : len t <= M → decompose M t = [t].
Proof.
  intros Hle. unfold decompose.
  assert (∀ seps, foldl (λ segments sep, flat_map (decompose_segment M sep) segments)
                        [t] seps = [t]) as H; [|apply H].
  induction seps as [|sep seps IH]; [done|]. simpl.
  unfold decompose_segment at 2. destruct (Z.leb_spec (len t) M); [|lia]. apply IH.
Qed.

(** C7, as stated, fails on the empty text: it is within the limit 1, and
    the chunker returns no chunk for it, not the one chunk [[]]. *)
Lemma small_text_counterexample :
  len [] <= 1
  ∧ split_text_into_chunks [] 1 = Some []
  ∧ split_text_into_chunks [] 1 ≠ Some [[]].
Proof. repeat split; done. Qed.

(** C7, amended. For every non-empty text no longer than the limit the
    chunker returns exactly one chunk, the text itself. *)
Theorem small_text_is_one_chunk (t : text) (M : Z) :
  t ≠ [] → len t <= M → split_text_into_chunks t M = Some [t].
Proof.
  intros Hne Hle. unfold split_text_into_chunks.
  destruct t as [|x t]; [done|]. cbn [truthy].
  rewrite decompose_small by done. unfold hard_split. cbn [mapM].
  unfold hard_split_segment. destruct (Z.ltb_spec M (len (x :: t))); [lia|].
  simpl. unfold merge_atoms. cbn [foldl]. unfold merge_step.
  replace (len [] + len (x :: t)) with (len (x :: t)) by (unfold len; simpl; lia).
  destruct (Z.leb_spec (len (x :: t)) M); [|lia]. done.
Qed.

Lemma small_text_is_one_chunk_witness :
  split_text_into_chunks (lit "aa bb cc") 8 = Some [lit "aa bb cc"].
Proof. apply (small_text_is_one_chunk (lit "aa bb cc") 8); [done|]. vm_compute. discriminate. Defined.

(** ** The prompt builder *)

(** C9. The prompt is the template's instructions followed by the chunk
    text as it is.  The instructions do not depend on the chunk; they are
    those of the language-identification template when the source language
    is the auto-detect sentinel, and those of the professional-translator
    template for every other source language. *)
Theorem prompt_ends_with_chunk (source_lang target_lang : text) :
  ∃ header,
    (∀ t, create_formatted_prompt source_lang target_lang t = header ++ t)
    ∧ (source_lang = lit "Auto Detect" → header = auto_detect_header target_lang)
    ∧ (source_lang ≠ lit "Auto Detect" →
       header = translator_header source_lang target_lang).
Proof.
  destruct (decide (source_lang = lit "Auto Detect")) as [Hs|Hs].
  - exists (auto_detect_header target_lang). split; [|split; done].
    intros t. unfold create_formatted_prompt, auto_detect_header.
    rewrite bool_decide_eq_true_2 by done. by rewrite <- !app_assoc.
  - exists (translator_header source_lang target_lang). split; [|split; done].
    intros t. unfold create_formatted_prompt, translator_header.
    rewrite bool_decide_eq_false_2 by done. by rewrite <- !app_assoc.
Qed.

(** ** The streaming driver *)

Section StreamingFacts.

Context {Temp : Type}.
Variables (svc : client Temp) (source_lang target_lang model_name : text)
          (temperature : Temp) (base_url : text) (total_chunks : nat).

Local Abbreviation req := (stream_request source_lang target_lang model_name temperature).
Local Abbreviation loop :=
  (stream_chunks svc source_lang target_lang model_name temperature base_url total_chunks).
Local Abbreviation completed :=
  (stream_completed svc source_lang target_lang model_name temperature).
Local Abbreviation reply i chunk := (complete_streaming svc i (req chunk)).

Lemma requests_of_app (a b : list (event Temp)) :
  requests_of (a ++ b) = requests_of a ++ requests_of b.
Proof. apply omap_app. Qed.

Lemma consume_stream_text (full progress acc : text) (deltas : list (option text)) :
  (consume_stream (Temp:=Temp) full progress acc deltas).1 = acc ++ stream_text deltas.
Proof.
  revert acc. induction deltas as [|[content|] deltas IH]; intros acc; simpl.
  - by rewrite app_nil_r.
  - specialize (IH (acc ++ content)).
    destruct (consume_stream full progress (acc ++ content) deltas) as [final views].
    simpl in *. rewrite IH. unfold stream_text. simpl. by rewrite app_assoc.
  - apply IH.
Qed.

Lemma consume_stream_requests (full progress acc : text) (deltas : list (option text)) :
  requests_of (consume_stream (Temp:=Temp) full progress acc deltas).2 = [].
Proof.
  revert acc. induction deltas as [|[content|] deltas IH]; intros acc; simpl; [done| |done].
  specialize (IH (acc ++ content)).
  by destruct (consume_stream full progress (acc ++ content) deltas).
Qed.

(** Every fragment with a content is followed by a view of everything
    received so far. *)
Lemma consume_stream_views (full progress acc : text) (deltas : list (option text))
    (k : nat) (content : text) :
  deltas !! k = Some (Some content) →
  Yield (full ++ acc ++ stream_text (take (S k) deltas)) progress
  ∈ (consume_stream (Temp:=Temp) full progress acc deltas).2.
Proof.
  revert acc k. induction deltas as [|[c|] deltas IH]; intros acc k Hk; [done| |].
  - simpl. pose proof (IH (acc ++ c)) as IH'.
    destruct (consume_stream full progress (acc ++ c) deltas) as [final views] eqn:E.
    simpl in *. destruct k as [|k].
    + unfold stream_text. simpl. rewrite app_nil_r. left.
    + right. specialize (IH' k Hk). unfold stream_text in *. simpl.
      by rewrite <- app_assoc in IH'.
  - destruct k as [|k]; [done|]. simpl in Hk. specialize (IH acc k Hk). done.
Qed.

(** After a run of chunks whose calls all end well the loop is where it
    would be, had it started there with their translations. *)
Lemma stream_chunks_app (done rest : list text) (i : nat) (full : text) :
  (∀ j c, done !! j = Some c → stream_failure (reply (i + j)%nat c) = None) →
  loop i full (done ++ rest)
  = loop i full done ++ loop (i + length done)%nat (full ++ completed i done) rest.
Proof.
  revert i full. induction done as [|chunk done IH]; intros i full Hok.
  - simpl. by rewrite Nat.add_0_r, app_nil_r.
  - pose proof (Hok 0%nat chunk eq_refl) as H0. rewrite Nat.add_0_r in H0.
    cbn [stream_chunks stream_completed app]. unfold stream_translation.
    destruct (reply i chunk) as [e|deltas [e|]]; [done..|]. f_equal.
    pose proof (consume_stream_text full
      (processing_label total_chunks i) [] deltas) as Ht.
    destruct (consume_stream _ _ _ deltas) as [acc views]. simpl in Ht. subst acc.
    rewrite <- app_assoc. f_equal. simpl. f_equal.
    rewrite IH.
    + f_equal. f_equal; [lia|]. by rewrite <- !app_assoc.
    + intros j c Hj. specialize (Hok (S j) c Hj).
      by replace (S i + j)%nat with (i + S j)%nat by lia.
Qed.

(** Such a run requests each of its chunks, in order ... *)
Lemma stream_chunks_ok_requests (done : list text) (i : nat) (full : text) :
  (∀ j c, done !! j = Some c → stream_failure (reply (i + j)%nat c) = None) →
  requests_of (loop i full done) = map req done.
Proof.
  revert i full. induction done as [|chunk done IH]; intros i full Hok; [done|].
  pose proof (Hok 0%nat chunk eq_refl) as H0. rewrite Nat.add_0_r in H0.
  cbn [stream_chunks map].
  destruct (reply i chunk) as [e|deltas [e|]]; [done..|].
  pose proof (consume_stream_requests full
    (processing_label total_chunks i) [] deltas) as Hr.
  destruct (consume_stream _ _ _ deltas) as [acc views]. simpl in Hr.
  change (requests_of (Request ?r :: ?l)) with (r :: requests_of l).
  f_equal. rewrite requests_of_app, Hr. simpl.
  change (requests_of (Yield ?a ?b :: ?l)) with (requests_of l).
  apply IH. intros j c Hj. specialize (Hok (S j) c Hj).
  by replace (S i + j)%nat with (i + S j)%nat by lia.
Qed.

(** ... and ends by showing their translations, each followed by a blank
    line. *)
Lemma stream_chunks_ok_last (done : list text) (chunk : text) (i : nat) (full : text) :
  (∀ j c, (done ++ [chunk]) !! j = Some c → stream_failure (reply (i + j)%nat c) = None) →
  last (loop i full (done ++ [chunk]))
  = Some (Yield (full ++ completed i (done ++ [chunk]))
                (completed_label total_chunks (i + length done))).
Proof.
  intros Hok. rewrite stream_chunks_app.
  2:{ intros j c Hj. apply Hok. apply lookup_app_Some. by left. }
  assert (stream_failure (reply (i + length done)%nat chunk) = None) as H0.
  { apply Hok. by rewrite list_lookup_middle. }
  cbn [stream_chunks].
  destruct (reply (i + length done)%nat chunk) as [e|deltas [e|]] eqn:E; [done..|].
  pose proof (consume_stream_text (full ++ completed i done)
    (processing_label total_chunks (i + length done)) [] deltas) as Ht.
  destruct (consume_stream _ _ _ deltas) as [acc views]. simpl in Ht. subst acc.
  rewrite app_comm_cons, app_assoc, last_snoc. f_equal. unfold completed_label. f_equal.
  assert (∀ l k, completed k (l ++ [chunk])
                 = completed k l ++ stream_translation svc source_lang target_lang
                     model_name temperature (k + length l) chunk ++ nl ++ nl) as Hc.
  { induction l as [|x l IHl]; intros k; simpl.
    - by rewrite Nat.add_0_r, !app_nil_r.
    - rewrite IHl. replace (S k + length l)%nat with (k + S (length l))%nat by lia.
      by rewrite <- !app_assoc. }
  rewrite Hc. unfold stream_translation. rewrite E. by rewrite <- !app_assoc.
Qed.

(** A call that fails ends the loop with the error view; nothing is
    requested after it. *)
Lemma stream_chunks_failure (chunk : text) (rest : list text) (i : nat) (full e : text) :
  stream_failure (reply i chunk) = Some e →
  ∃ views,
    loop i full (chunk :: rest)
    = Request (req chunk) :: views ++ [stream_error_view base_url full i e]
    ∧ requests_of views = []
    ∧ ∀ deltas ending, reply i chunk = StreamOf deltas ending →
        views = (consume_stream full (processing_label total_chunks i) [] deltas).2.
Proof.
  intros Hf. cbn [stream_chunks].
  destruct (reply i chunk) as [e'|deltas [e'|]] eqn:E; simpl in Hf; [| |done].
  - injection Hf as ->. exists []. by repeat split.
  - injection Hf as ->.
    pose proof (consume_stream_requests full (processing_label total_chunks i) [] deltas) as Hr.
    unfold processing_label in *.
    destruct (consume_stream _ _ _ deltas) as [acc views] eqn:Ec. exists views.
    repeat split; [done|]. intros d en [= <- <-]. by rewrite Ec.
Qed.

(** Whatever the service does, the requests sent are those of a prefix of
    the chunk list, in order. *)
Lemma stream_chunks_requests_prefix (chunks : list text) (i : nat) (full : text) :
  ∃ n, requests_of (loop i full chunks) = map req (take n chunks).
Proof.
  revert i full. induction chunks as [|chunk chunks IH]; intros i full.
  - by exists 0%nat.
  - cbn [stream_chunks].
    change (requests_of (Request ?r :: ?l)) with (r :: requests_of l).
    destruct (reply i chunk) as [e|deltas ending]; [by exists 1%nat|].
    pose proof (consume_stream_requests full
      (processing_label total_chunks i) [] deltas) as Hr.
    destruct (consume_stream _ _ _ deltas) as [acc views]. simpl in Hr.
    rewrite requests_of_app, Hr. destruct ending as [e|].
    + by exists 1%nat.
    + change (requests_of (Yield ?a ?b :: ?l)) with (requests_of l).
      destruct (IH (S i) (full ++ acc ++ nl ++ nl)) as [n Hn].
      exists (S n). cbn [take map app]. by rewrite Hn.
Qed.

End StreamingFacts.

(** ** The batch driver *)

Section BatchFacts.

Context {Temp : Type}.
Variables (svc : client Temp) (source_lang target_lang model_name : text)
          (temperature : Temp).

Local Abbreviation breq := (batch_request source_lang target_lang model_name temperature).
Local Abbreviation bloop :=
  (file_chunks svc source_lang target_lang model_name temperature).
Local Abbreviation appended :=
  (batch_completed svc source_lang target_lang model_name temperature).

Lemma outputs_of_app (a b : list (event Temp)) :
  outputs_of (a ++ b) = outputs_of a ++ outputs_of b.
Proof. apply omap_app. Qed.



(** The loop never stops early: it ends with everything appended ... *)
Lemma file_chunks_final (chunks : list text) (i : nat) (full : text) :
  (bloop i full chunks).1 = full ++ appended i chunks.
Proof.
  revert i full. induction chunks as [|chunk chunks IH]; intros i full; simpl.
  - by rewrite app_nil_r.
  - specialize (IH (S i) (full ++ batch_piece svc source_lang target_lang model_name
                                              temperature i chunk)).
    destruct (bloop (S i) _ chunks) as [final events]. simpl in *.
    by rewrite IH, app_assoc.
Qed.

(** ... has requested every chunk, in order ... *)
Lemma file_chunks_requests (chunks : list text) (i : nat) (full : text) :
  requests_of (bloop i full chunks).2 = map breq chunks.
Proof.
  revert i full. induction chunks as [|chunk chunks IH]; intros i full; simpl; [done|].
  specialize (IH (S i) (full ++ batch_piece svc source_lang target_lang model_name
                                            temperature i chunk)).
  destruct (bloop (S i) _ chunks) as [final events]. simpl in *.
  change (requests_of (Request ?r :: YieldFile ?a ?b :: ?l)) with (r :: requests_of l).
  by rewrite IH.
Qed.

(** ... has shown the accumulated text after every chunk ... *)
Lemma file_chunks_outputs (chunks : list text) (i : nat) (full : text) (k : nat) :
  (k < length chunks)%nat →
  outputs_of (bloop i full chunks).2 !! k = Some (full ++ appended i (take (S k) chunks)).
Proof.
  revert i full k. induction chunks as [|chunk chunks IH]; intros i full k Hk; simpl in Hk; [lia|].
  simpl.
  pose proof (IH (S i) (full ++ batch_piece svc source_lang target_lang model_name
                                            temperature i chunk)) as IH'.
  destruct (bloop (S i) _ chunks) as [final events]. simpl in *.
  change (outputs_of (Request ?r :: YieldFile ?a ?b :: ?l)) with (a :: outputs_of l).
  destruct k as [|k]; simpl.
  - by rewrite app_nil_r.
  - rewrite IH' by lia. by rewrite <- app_assoc.
Qed.

Lemma file_chunks_outputs_length (chunks : list text) (i : nat) (full : text) :
  length (outputs_of (bloop i full chunks).2) = length chunks.
Proof.
  revert i full. induction chunks as [|chunk chunks IH]; intros i full; simpl; [done|].
  specialize (IH (S i) (full ++ batch_piece svc source_lang target_lang model_name
                                            temperature i chunk)).
  destruct (bloop (S i) _ chunks) as [final events]. simpl in *.
  change (outputs_of (Request ?r :: YieldFile ?a ?b :: ?l)) with (a :: outputs_of l).
  simpl. by rewrite IH.
Qed.


(** The run of the driver on a readable file whose text can be split. *)
Lemma translate_file_run (fs : filesystem) (os : os_path) (file_obj : file_arg)
    (file_path t : text) (M : Z) (chunks : list text) :
  file_obj = FilePath file_path ∨ file_obj = FileNamed file_path →
  read_text fs file_path = inl t →
  split_text_into_chunks t M = Some chunks →
  translate_file_process fs os svc file_obj source_lang target_lang model_name temperature M
  = YieldFile (lit "Starting translation of " ++ str_of_nat (length chunks)
               ++ lit " chunks...") None
    :: (bloop 0 [] chunks).2
    ++ match write_text fs (output_path_of os file_path) (appended 0 chunks) with
       | Some e => [Uncaught (OSError e)]
       | None => [WriteFile (output_path_of os file_path) (appended 0 chunks);
                  YieldFile (appended 0 chunks) (Some (output_path_of os file_path))]
       end.
Proof.
  intros Hobj Hread Hsplit.
  assert (translate_file_process fs os svc file_obj source_lang target_lang model_name
            temperature M
          = translate_file_from_path svc source_lang target_lang model_name temperature
              fs os file_path M) as -> by (by destruct Hobj as [-> | ->]).
  unfold translate_file_from_path. rewrite Hread, Hsplit.
  pose proof (file_chunks_final chunks 0 []) as Hf.
  destruct (bloop 0 [] chunks) as [final events]. simpl in Hf. by subst final.
Qed.

End BatchFacts.

(** ** The drivers' contracts *)

(** C8. The chunker returns the empty sequence for the empty text,
    whatever the limit; the streaming driver, given the empty text, yields
    one empty result (empty text, empty progress label) and sends no
    request to the service. *)
Theorem empty_text_is_not_translated {Temp : Type} (svc : client Temp)
    (source_lang target_lang model_name : text) (temperature : Temp)
    (base_url : text) (M : Z) :
  split_text_into_chunks [] M = Some []
  ∧ translate_streaming svc [] source_lang target_lang model_name temperature base_url M
    = [Yield [] []]
  ∧ requests_of (translate_streaming svc [] source_lang target_lang model_name
                                     temperature base_url M) = [].
Proof. done. Qed.

(** The run of the streaming driver around a chunk whose call fails: the
    chunks before it complete, it is requested, its fragments are shown,
    and the error view ends the run. *)
Lemma translate_streaming_failure {Temp : Type} (svc : client Temp)
    (t source_lang target_lang model_name : text) (temperature : Temp)
    (base_url : text) (M : Z) (chunks : list text) (i : nat) (chunk e : text) :
  split_text_into_chunks t M = Some chunks →
  chunks !! i = Some chunk →
  (∀ j c, (j < i)%nat → chunks !! j = Some c →
          stream_failure (complete_streaming svc j
            (stream_request source_lang target_lang model_name temperature c)) = None) →
  stream_failure (complete_streaming svc i
    (stream_request source_lang target_lang model_name temperature chunk)) = Some e →
  ∃ views,
    translate_streaming svc t source_lang target_lang model_name temperature base_url M
    = stream_chunks svc source_lang target_lang model_name temperature base_url
                    (length chunks) 0 [] (take i chunks)
      ++ Request (stream_request source_lang target_lang model_name temperature chunk)
      :: views
      ++ [stream_error_view base_url
            (stream_completed svc source_lang target_lang model_name temperature 0
                              (take i chunks)) i e]
    ∧ requests_of views = []
    ∧ ∀ deltas ending,
        complete_streaming svc i
          (stream_request source_lang target_lang model_name temperature chunk)
        = StreamOf deltas ending →
        views = (consume_stream
                   (stream_completed svc source_lang target_lang model_name temperature 0
                                     (take i chunks))
                   (processing_label (length chunks) i) [] deltas).2.
Proof.
  intros Hsplit Hi Hok Hfail. unfold translate_streaming.
  destruct t as [|x t].
  { injection Hsplit as <-. done. }
  cbn [truthy]. rewrite Hsplit.
  pose proof (lookup_lt_Some _ _ _ Hi) as Hlt.
  pose proof (stream_chunks_app svc source_lang target_lang model_name temperature
                base_url (length chunks) (take i chunks) (chunk :: drop (S i) chunks)
                0 []) as Happ.
  rewrite (take_drop_middle chunks i chunk Hi) in Happ. rewrite Happ.
  2:{ intros j c Hj. simpl. apply Hok.
      - apply lookup_lt_Some in Hj. rewrite length_take in Hj. lia.
      - rewrite lookup_take_Some in Hj. tauto. }
  rewrite length_take, Nat.min_l by lia. rewrite Nat.add_0_l, app_nil_l.
  destruct (stream_chunks_failure svc source_lang target_lang model_name temperature
              base_url (length chunks) chunk (drop (S i) chunks) i
              (stream_completed svc source_lang target_lang model_name temperature 0
                                (take i chunks)) e Hfail)
    as (views & Hrun & Hreq & Hviews).
  exists views. rewrite Hrun. done.
Qed.



(** C10. In streaming mode, when the stream of a chunk breaks after some
    fragments (the chunks before it having completed), every fragment
    received was shown in a view made of the completed chunks and the
    partial translation; the last output is made of the completed chunks
    and the error marker only, without the partial translation. *)
Theorem streaming_drops_partial_chunk {Temp : Type} (svc : client Temp)
    (t source_lang target_lang model_name : text) (temperature : Temp)
    (base_url : text) (M : Z) (chunks : list text) (i : nat) (chunk e : text)
    (deltas : list (option text)) :
  split_text_into_chunks t M = Some chunks →
  chunks !! i = Some chunk →
  (∀ j c, (j < i)%nat → chunks !! j = Some c →
          stream_failure (complete_streaming svc j
            (stream_request source_lang target_lang model_name temperature c)) = None) →
  complete_streaming svc i
    (stream_request source_lang target_lang model_name temperature chunk)
  = StreamOf deltas (Some e) →
  let run := translate_streaming svc t source_lang target_lang model_name temperature
                                 base_url M in
  let completed := stream_completed svc source_lang target_lang model_name temperature
                                    0 (take i chunks) in
  (∀ k content, deltas !! k = Some (Some content) →
     Yield (completed ++ stream_text (take (S k) deltas))
           (processing_label (length chunks) i) ∈ run)
  ∧ last run = Some (Yield (completed ++ stream_error_marker base_url i e)
                           (lit "Error on chunk " ++ str_of_nat (i + 1))).
Proof.
  intros Hsplit Hi Hok Hreply run completed.
  assert (stream_failure (complete_streaming svc i
            (stream_request source_lang target_lang model_name temperature chunk))
          = Some e) as Hfail by by rewrite Hreply.
  destruct (translate_streaming_failure svc t source_lang target_lang model_name
              temperature base_url M chunks i chunk e Hsplit Hi Hok Hfail)
    as (views & Hrun & _ & Hviews).
  specialize (Hviews deltas (Some e) Hreply). split.
  - intros k content Hk. unfold run. rewrite Hrun.
    apply elem_of_app. right. right. apply elem_of_app. left. rewrite Hviews.
    apply (consume_stream_views completed (processing_label (length chunks) i) []
             deltas k content Hk).
  - unfold run. rewrite Hrun. by rewrite app_comm_cons, app_assoc, last_snoc.
Qed.

Lemma streaming_drops_partial_chunk_witness :
  let url := lit "http://localhost:1234/v1" in
  let run := translate_streaming breaks_midstream (lit "aa bb cc") (lit "English")
               (lit "Korean") (lit "translategemma-12b-it") sample_temperature url 3 in
  Yield ((lit "Hello" ++ nl ++ nl) ++ lit "par") (lit "Processing chunk 2 of 3...") ∈ run
  ∧ Yield ((lit "Hello" ++ nl ++ nl) ++ lit "partial") (lit "Processing chunk 2 of 3...")
    ∈ run
  ∧ last run = Some (Yield ((lit "Hello" ++ nl ++ nl)
                            ++ stream_error_marker url 1 (lit "timed out"))
                           (lit "Error on chunk 2")).
Proof.
  intros url run.
  destruct (streaming_drops_partial_chunk breaks_midstream (lit "aa bb cc") (lit "English")
              (lit "Korean") (lit "translategemma-12b-it") sample_temperature url 3
              [lit "aa "; lit "bb "; lit "cc"] 1 (lit "bb ") (lit "timed out")
              [Some (lit "par"); Some (lit "tial")])
    as [Hviews Hlast].
  - vm_compute. reflexivity.
  - reflexivity.
  - intros j c Hj Hc. assert (j = 0%nat) as -> by lia. reflexivity.
  - reflexivity.
  - split; [|split].
    + exact (Hviews 0%nat (lit "par") eq_refl).
    + exact (Hviews 1%nat (lit "tial") eq_refl).
    + exact Hlast.
Defined.



(** C5, as stated, fails: after the only chunk of a one-chunk job has
    completed with the translation [X], the accumulated text is [X]
    followed by a blank line, not the translations joined with separators
    between them (here [X] alone). *)
Lemma accumulated_text_counterexample :
  let run := translate_streaming answers_X (lit "hi") (lit "English") (lit "Korean")
               (lit "translategemma-12b-it") sample_temperature
               (lit "http://localhost:1234/v1") 1500 in
  let translations :=
    [stream_translation answers_X (lit "English") (lit "Korean")
                        (lit "translategemma-12b-it") sample_temperature 0 (lit "hi")] in
  translations = [lit "X"]
  ∧ last run = Some (Yield (lit "X" ++ nl ++ nl) (lit "Completed 1 of 1 chunks."))
  ∧ lit "X" ++ nl ++ nl ≠ Py.join (nl ++ nl) translations.
Proof. repeat split; try (vm_compute; reflexivity). vm_compute. discriminate. Qed.

(** C5, amended. Chunks are requested strictly in the order of the chunk
    list, in both modes.  In streaming mode, once the first [k] chunks have
    completed, the accumulated text shown is their translations in order,
    each followed by one chunk separator (a blank line): [k] separators for
    [k] chunks, the last one trailing.  In batch mode, after [k] chunks the
    accumulated text shown is, in order, what each of them appended: its
    translation followed by one separator, or its error marker when its
    call failed. *)
Theorem accumulated_text_invariant {Temp : Type} (fs : filesystem) (os : os_path)
    (svc : client Temp) (file_obj : file_arg)
    (file_path t source_lang target_lang model_name : text) (temperature : Temp)
    (base_url : text) (M : Z) (chunks : list text) :
  split_text_into_chunks t M = Some chunks →
  let streaming := translate_streaming svc t source_lang target_lang model_name
                                       temperature base_url M in
  let batch := translate_file_process fs os svc file_obj source_lang target_lang
                                      model_name temperature M in
  (∃ n, requests_of streaming
        = map (stream_request source_lang target_lang model_name temperature)
              (take n chunks))
  ∧ (∀ k, (1 ≤ k ≤ length chunks)%nat →
       (∀ j c, (j < k)%nat → chunks !! j = Some c →
          stream_failure (complete_streaming svc j
            (stream_request source_lang target_lang model_name temperature c)) = None) →
       Yield (stream_completed svc source_lang target_lang model_name temperature
                               0 (take k chunks))
             (completed_label (length chunks) (k - 1)) ∈ streaming)
  ∧ (file_obj = FilePath file_path ∨ file_obj = FileNamed file_path →
     read_text fs file_path = inl t →
     requests_of batch
     = map (batch_request source_lang target_lang model_name temperature) chunks
     ∧ ∀ k, (1 ≤ k ≤ length chunks)%nat →
         outputs_of batch !! k
         = Some (batch_completed svc source_lang target_lang model_name temperature
                                 0 (take k chunks))).
Proof.
  intros Hsplit streaming batch.
  assert (streaming = stream_chunks svc source_lang target_lang model_name temperature
                                    base_url (length chunks) 0 [] chunks
          ∨ (chunks = [] ∧ streaming = [Yield [] []])) as Hrun.
  { unfold streaming, translate_streaming. destruct t as [|x t].
    - right. by injection Hsplit as <-.
    - left. cbn [truthy]. by rewrite Hsplit. }
  split; [|split].
  - destruct Hrun as [-> | [-> ->]]; [|by exists 0%nat].
    apply stream_chunks_requests_prefix.
  - intros k Hk Hok. destruct Hrun as [-> | [-> _]]; [|simpl in Hk; lia].
    pose proof (stream_chunks_app svc source_lang target_lang model_name temperature
                  base_url (length chunks) (take k chunks) (drop k chunks) 0 []) as Happ.
    rewrite (take_drop k chunks) in Happ. rewrite Happ.
    2:{ intros j c Hj. simpl. rewrite lookup_take_Some in Hj. apply Hok; tauto. }
    apply elem_of_app. left.
    destruct (take k chunks) as [|c0 l] eqn:E using rev_ind.
    { apply (f_equal length) in E. rewrite length_take in E. simpl in E. lia. }
    clear IHl.
    assert (length l = (k - 1)%nat) as Hlen.
    { apply (f_equal length) in E. rewrite length_take, length_app in E. simpl in E. lia. }
    pose proof (stream_chunks_ok_last svc source_lang target_lang model_name temperature
                  base_url (length chunks) l c0 0 []) as Hlast.
    rewrite Hlen in Hlast. simpl in Hlast.
    apply last_Some in Hlast as [l' ->].
    + apply elem_of_app. right. left.
    + intros j c Hj. rewrite <- E in Hj. rewrite lookup_take_Some in Hj.
      apply Hok; tauto.
  - intros Hobj Hread. unfold batch.
    rewrite (translate_file_run svc source_lang target_lang model_name temperature
               fs os file_obj file_path t M chunks Hobj Hread Hsplit).
    change (outputs_of (YieldFile ?a ?b :: ?l)) with (a :: outputs_of l).
    change (requests_of (YieldFile ?a ?b :: ?l)) with (requests_of l).
    rewrite requests_of_app, outputs_of_app, file_chunks_requests.
    split.
    + destruct (write_text fs _ _); simpl; by rewrite app_nil_r.
    + intros k Hk. destruct k as [|k]; [lia|]. simpl.
      rewrite lookup_app_l by (rewrite file_chunks_outputs_length; lia).
      by rewrite file_chunks_outputs by lia.
Qed.

Lemma accumulated_text_invariant_witness :
  let url := lit "http://localhost:1234/v1" in
  let streaming := translate_streaming both_modes (lit "aa bb cc") (lit "English")
                     (lit "Korean") (lit "translategemma-12b-it") sample_temperature
                     url 3 in
  let batch := translate_file_process (reads_as (lit "aa bb cc")) bare_names
                 both_modes (FilePath (lit "notes")) (lit "English") (lit "Korean")
                 (lit "translategemma-12b-it") sample_temperature 3 in
  let chunks := [lit "aa "; lit "bb "; lit "cc"] in
  Yield (lit "Hello" ++ nl ++ nl) (lit "Completed 1 of 3 chunks.") ∈ streaming
  ∧ requests_of batch
    = map (batch_request (lit "English") (lit "Korean") (lit "translategemma-12b-it")
                         sample_temperature) chunks
  ∧ outputs_of batch !! 1%nat = Some (lit "uno" ++ nl ++ nl)
  ∧ outputs_of batch !! 3%nat
    = Some ((lit "uno" ++ nl ++ nl)
            ++ batch_error_marker 1 (lit "Connection error.")
            ++ (lit "tres" ++ nl ++ nl)).
Proof.
  intros url streaming batch chunks.
  destruct (accumulated_text_invariant (reads_as (lit "aa bb cc")) bare_names
              both_modes (FilePath (lit "notes")) (lit "notes") (lit "aa bb cc")
              (lit "English") (lit "Korean") (lit "translategemma-12b-it")
              sample_temperature url 3 chunks)
    as (_ & Hstream & Hbatch).
  { vm_compute. reflexivity. }
  destruct (Hbatch (or_introl eq_refl) eq_refl) as [Hrequests Houtputs].
  split; [|split; [exact Hrequests|split]].
  - apply (Hstream 1%nat); [simpl; lia|].
    intros j c Hj Hc. assert (j = 0%nat) as -> by lia. reflexivity.
  - apply (Houtputs 1%nat). simpl. lia.
  - apply (Houtputs 3%nat). simpl. lia.
Defined.

(** * Further properties of the chunker *)

Lemma merge_step_nonempty (M : Z) (st : list text * text) (atom : text) :
  Forall (λ c : text, c ≠ []) st.1 →
  Forall (λ c : text, c ≠ []) (merge_step M st atom).1.
Proof.
  destruct st as [chunks cur]. simpl. intros H. unfold merge_step.
  destruct (len cur + len atom <=? M); [done|].
  destruct cur as [|x cur]; simpl; [done|].
  apply Forall_app. split; [done|]. by constructor.
Qed.

Lemma merge_loop_nonempty (M : Z) (atoms : list text) (st : list text * text) :
  Forall (λ c : text, c ≠ []) st.1 →
  Forall (λ c : text, c ≠ []) (foldl (merge_step M) st atoms).1.
Proof.
  revert st. induction atoms as [|a atoms IH]; intros st H; [done|].
  simpl. apply IH. by apply merge_step_nonempty.
Qed.

(** The merge never closes an empty chunk. *)
Lemma merge_atoms_nonempty (M : Z) (atoms : list text) :
  Forall (λ c : text, c ≠ []) (merge_atoms M atoms).
Proof.
  unfold merge_atoms.
  pose proof (merge_loop_nonempty M atoms ([], []) ltac:(constructor)) as H.
  destruct (foldl (merge_step M) ([], []) atoms) as [chunks cur]. simpl in H.
  destruct cur as [|x cur]; simpl; [done|].
  apply Forall_app. split; [done|]. by constructor.
Qed.

Lemma split_chunks_nonempty (t : text) (M : Z) (chunks : list text) :
  split_text_into_chunks t M = Some chunks →
  Forall (λ c : text, c ≠ []) chunks.
Proof.
  unfold split_text_into_chunks. destruct (truthy t).
  - destruct (hard_split M (decompose M t)) as [atoms|]; [|done].
    simpl. intros [= <-]. apply merge_atoms_nonempty.
  - intros [= <-]. constructor.
Qed.

(** X1. Whatever the limit, a chunk the chunker returns is never empty. *)
Theorem chunks_are_nonempty (t : text) (M : Z) (chunks : list text) :
  split_text_into_chunks t M = Some chunks →
  Forall (λ c : text, c ≠ []) chunks.
Proof. apply split_chunks_nonempty. Qed.

Lemma chunks_are_nonempty_witness :
  Forall (λ c : text, c ≠ []) [lit "aaa" ++ nl ++ nl; lit "bbb"].
Proof.
  apply (chunks_are_nonempty (lit "aaa" ++ nl ++ nl ++ lit "bbb") 6).
  vm_compute. reflexivity.
Defined.

Lemma concat_nonempty_Exists (l : list text) :
  concat l ≠ [] → Exists (λ s : text, s ≠ []) l.
Proof.
  induction l as [|s l IH]; [done|]. simpl. intros H.
  destruct s as [|x s]; [right; by apply IH|]. by left.
Qed.

Lemma split_zero (t : text) : t ≠ [] → split_text_into_chunks t 0 = None.
Proof.
  intros Ht. unfold split_text_into_chunks.
  destruct t as [|x t]; [done|]. cbn [truthy].
  assert (hard_split 0 (decompose 0 (x :: t)) = None) as ->; [|done].
  unfold hard_split.
  rewrite (mapM_None_2 (hard_split_segment 0) (decompose 0 (x :: t))); [done|].
  assert (Exists (λ s : text, s ≠ []) (decompose 0 (x :: t))) as Hex.
  { apply concat_nonempty_Exists. by rewrite decompose_concat. }
  eapply Exists_impl; [exact Hex|]. intros s Hs. simpl in Hs.
  unfold hard_split_segment.
  assert (0 < len s) as Hlen by (by apply truthy_len, truthy_true).
  destruct (Z.ltb_spec 0 (len s)); [|lia]. done.
Qed.

(** X2. With the limit 0 the chunker raises on every non-empty text (the
    [ValueError] of [range] with step 0). *)
Theorem zero_limit_raises (t : text) :
  t ≠ [] → split_text_into_chunks t 0 = None.
Proof. apply split_zero. Qed.

Lemma zero_limit_raises_witness : split_text_into_chunks (lit "ab") 0 = None.
Proof. apply (zero_limit_raises (lit "ab")). done. Defined.

Lemma mapM_all_nil (f : text → option (list text)) (l : list text) :
  (∀ s, f s = Some []) → mapM f l = Some (map (λ _, []) l).
Proof.
  intros Hf. induction l as [|s l IH]; [done|].
  cbn [mapM]. rewrite Hf, IH. done.
Qed.

Lemma split_negative (t : text) (M : Z) : M < 0 → split_text_into_chunks t M = Some [].
Proof.
  intros HM. unfold split_text_into_chunks. destruct (truthy t); [|done].
  unfold hard_split. rewrite (mapM_all_nil (hard_split_segment M)).
  - simpl. assert (∀ l : list text, concat (map (λ _, []) l) = @nil text) as ->; [|done].
    induction l; [done|]. done.
  - intros s. unfold hard_split_segment. pose proof (len_nonneg s).
    destruct (Z.ltb_spec M (len s)); [|lia].
    unfold Py.range. destruct (Z.eqb_spec M 0); [lia|].
    unfold Py.range_len. destruct (Z.ltb_spec 0 M); [lia|].
    destruct (Z.ltb_spec (len s) 0); [lia|]. done.
Qed.

(** X3. With a negative limit the chunker returns no chunk at all,
    whatever the text: the text is dropped without an error. *)
Theorem negative_limit_drops_text (t : text) (M : Z) :
  M < 0 → split_text_into_chunks t M = Some [].
Proof. apply split_negative. Qed.

Lemma negative_limit_drops_text_witness :
  split_text_into_chunks (lit "ab") (-1) = Some [].
Proof. apply (negative_limit_drops_text (lit "ab") (-1)). lia. Defined.

Lemma concat_len_upper (M : Z) (l : list text) :
  Forall (λ c, len c <= M) l → len (concat l) <= Z.of_nat (length l) * M.
Proof.
  induction 1 as [|c l Hc Hl IH]; simpl; [done|].
  rewrite len_app. lia.
Qed.

Lemma concat_len_lower (l : list text) :
  Forall (λ c : text, c ≠ []) l → Z.of_nat (length l) <= len (concat l).
Proof.
  induction 1 as [|c l Hc Hl IH]; simpl; [done|].
  rewrite len_app. assert (0 < len c) by (by apply truthy_len, truthy_true). lia.
Qed.

Lemma neighbours_tail (M : Z) (c : text) (l : list text) :
  neighbours_exceed M (c :: l) → neighbours_exceed M l.
Proof. intros H i c1 c2 H1 H2. by apply (H (S i) c1 c2). Qed.

Lemma concat_len_pairs (M : Z) (l : list text) :
  0 <= M → neighbours_exceed M l →
  M * Z.of_nat (length l / 2) <= len (concat l).
Proof.
  intros HM.
  assert (∀ n (l : list text), (length l ≤ n)%nat → neighbours_exceed M l →
            M * Z.of_nat (length l / 2) <= len (concat l)) as H; [|by apply (H (length l))].
  clear l. induction n as [|n IH]; intros l Hn Hl.
  - destruct l; [|simpl in Hn; lia]. simpl. unfold len. simpl. lia.
  - destruct l as [|a [|b l]].
    + simpl. unfold len. simpl. lia.
    + simpl. pose proof (len_nonneg (a ++ [])). lia.
    + pose proof (Hl 0%nat a b eq_refl eq_refl) as Hab.
      assert (neighbours_exceed M l) as Hl' by by do 2 apply neighbours_tail in Hl.
      specialize (IH l ltac:(simpl in Hn; lia) Hl').
      change (length (a :: b :: l)) with (2 + length l)%nat.
      replace ((2 + length l) / 2)%nat with (1 + length l / 2)%nat
        by (rewrite <- (Nat.div_add_l 1 2 (length l)) by lia; f_equal; lia).
      simpl concat. rewrite !len_app. lia.
Qed.

(** X4. For a limit of at least 1 the number [n] of chunks is bounded both
    ways by the length of the text: [n <= len(T) <= n * M], and, since no
    two neighbours fit in one chunk, [M * (n // 2) <= len(T)]. *)
Theorem chunk_count_bounds (t : text) (M : Z) (chunks : list text) :
  1 <= M → split_text_into_chunks t M = Some chunks →
  Z.of_nat (length chunks) <= len t
  ∧ len t <= Z.of_nat (length chunks) * M
  ∧ M * Z.of_nat (length chunks / 2) <= len t.
Proof.
  intros HM Hsplit.
  destruct (split_text_into_chunks_spec t M HM) as (chunks' & E & Hc & Hb & Hn).
  rewrite Hsplit in E. injection E as <-.
  pose proof (split_chunks_nonempty t M chunks Hsplit) as Hne.
  rewrite <- Hc. split; [|split].
  - by apply concat_len_lower.
  - by apply concat_len_upper.
  - apply concat_len_pairs; [lia|done].
Qed.

Lemma chunk_count_bounds_witness :
  Z.of_nat 3 <= len (lit "aa bb cc")
  ∧ len (lit "aa bb cc") <= Z.of_nat 3 * 3
  ∧ 3 * Z.of_nat (3 / 2) <= len (lit "aa bb cc").
Proof.
  apply (chunk_count_bounds (lit "aa bb cc") 3 [lit "aa "; lit "bb "; lit "cc"]); [lia|].
  vm_compute. reflexivity.
Defined.


(** A non-empty text within the limit is its own only chunk. *)
Lemma split_small (t : text) (M : Z) :
  t ≠ [] → len t <= M → split_text_into_chunks t M = Some [t].
Proof.
  intros Hne Hle. unfold split_text_into_chunks.
  destruct t as [|x t]; [done|]. cbn [truthy].
  rewrite decompose_small by done. unfold hard_split. cbn [mapM].
  unfold hard_split_segment. destruct (Z.ltb_spec M (len (x :: t))); [lia|].
  simpl. unfold merge_atoms. cbn [foldl]. unfold merge_step.
  replace (len [] + len (x :: t)) with (len (x :: t)) by (unfold len; simpl; lia).
  destruct (Z.leb_spec (len (x :: t)) M); [|lia]. done.
Qed.

(** X5. Chunking is stable: for a limit of at least 1, chunking a chunk
    again with the same limit returns that chunk alone. *)
Theorem rechunking_is_stable (t : text) (M : Z) (chunks : list text) (c : text) :
  1 <= M → split_text_into_chunks t M = Some chunks → c ∈ chunks →
  split_text_into_chunks c M = Some [c].
Proof.
  intros HM Hsplit Hc.
  destruct (split_text_into_chunks_spec t M HM) as (chunks' & E & _ & Hb & _).
  rewrite Hsplit in E. injection E as <-.
  pose proof (split_chunks_nonempty t M chunks Hsplit) as Hne.
  rewrite Forall_forall in Hb, Hne. apply split_small; [by apply Hne|by apply Hb].
Qed.

Lemma rechunking_is_stable_witness :
  split_text_into_chunks (lit "bb ") 3 = Some [lit "bb "].
Proof.
  apply (rechunking_is_stable (lit "aa bb cc") 3 [lit "aa "; lit "bb "; lit "cc"]).
  - lia.
  - vm_compute. reflexivity.
  - right. left.
Defined.

(** On atoms that are non-empty and pairwise too long to share a chunk
    the loop of the merge closes every chunk with one atom. *)
Lemma merge_loop_packed (M : Z) (atoms chunks : list text) (cur : text) :
  Forall (λ c : text, c ≠ []) (cur :: atoms) →
  neighbours_exceed M (cur :: atoms) →
  ∃ init lst, cur :: atoms = init ++ [lst] ∧ lst ≠ []
              ∧ foldl (merge_step M) (chunks, cur) atoms = (chunks ++ init, lst).
Proof.
  revert chunks cur. induction atoms as [|a atoms IH]; intros chunks cur Hne Hn.
  - exists [], cur. inversion_clear Hne. simpl. by rewrite app_nil_r.
  - pose proof (Hn 0%nat cur a eq_refl eq_refl) as Hover.
    inversion Hne as [|? ? Hcur Hne']; subst.
    destruct (IH (chunks ++ [cur]) a Hne' (neighbours_tail _ _ _ Hn))
      as (init & lst & E & Hlst & Hfold).
    exists (cur :: init), lst. split; [by rewrite E|]. split; [done|].
    cbn [foldl]. unfold merge_step at 2.
    destruct (Z.leb_spec (len cur + len a) M); [lia|].
    assert (truthy cur = true) as -> by by apply truthy_true.
    rewrite Hfold. by rewrite <- app_assoc.
Qed.

Lemma merge_atoms_packed (M : Z) (atoms : list text) :
  Forall (λ c : text, c ≠ []) atoms →
  Forall (λ c, len c <= M) atoms →
  neighbours_exceed M atoms →
  merge_atoms M atoms = atoms.
Proof.
  intros Hne Hb Hn. destruct atoms as [|a atoms]; [done|].
  unfold merge_atoms. cbn [foldl]. unfold merge_step at 2.
  inversion Hb as [|? ? Ha _]; subst.
  replace (len [] + len a) with (len a) by (unfold len; simpl; lia).
  destruct (Z.leb_spec (len a) M); [|lia]. simpl app.
  destruct (merge_loop_packed M atoms [] a Hne Hn) as (init & lst & E & Hlst & ->).
  apply truthy_true in Hlst. rewrite Hlst. by rewrite E.
Qed.

(** X6. The merge is idempotent: on atoms within a limit of at least 0,
    merging the merged chunks again changes nothing. *)
Theorem merge_is_idempotent (M : Z) (atoms : list text) :
  0 <= M → Forall (λ a, len a <= M) atoms →
  merge_atoms M (merge_atoms M atoms) = merge_atoms M atoms.
Proof.
  intros HM Hb. destruct (merge_atoms_spec M atoms HM Hb) as (_ & Hb' & Hn).
  apply merge_atoms_packed; [apply merge_atoms_nonempty|done|done].
Qed.

Lemma merge_is_idempotent_witness :
  merge_atoms 5 (merge_atoms 5 [lit "aa "; lit "bb"; lit "c "; lit "dd"])
  = merge_atoms 5 [lit "aa "; lit "bb"; lit "c "; lit "dd"].
Proof.
  apply (merge_is_idempotent 5 [lit "aa "; lit "bb"; lit "c "; lit "dd"]); [lia|].
  repeat constructor; vm_compute; discriminate.
Defined.

(** ** Texts without separators, and two paragraphs *)

Lemma startswith_elem (s p : text) (c : N) :
  Py.startswith s p = true → c ∈ p → c ∈ s.
Proof.
  intros H Hc. rewrite (startswith_app s p H). apply elem_of_app. by left.
Qed.

(** A separator with a character the text lacks does not occur in it. *)
Lemma find_None_lacks (t sep : text) (c : N) :
  c ∈ sep → lacks c t → Py.find t sep = None.
Proof.
  unfold lacks. intros Hc. induction t as [|x t IH]; intros Ht.
  - rewrite find_nil. destruct (Py.startswith [] sep) eqn:E; [|done].
    exfalso. apply Ht. by apply (startswith_elem [] sep).
  - rewrite find_cons. destruct (Py.startswith (x :: t) sep) eqn:E.
    + exfalso. apply Ht. by apply (startswith_elem (x :: t) sep).
    + rewrite IH; [done|]. intros Hin. apply Ht. by right.
Qed.

Lemma split_no_occurrence (t sep : text) : Py.find t sep = None → Py.split t sep = [t].
Proof. intros H. unfold Py.split. destruct (length t); simpl; by rewrite H. Qed.

Lemma decompose_segment_no_occurrence (M : Z) (sep t : text) :
  Py.find t sep = None → decompose_segment M sep t = [t].
Proof.
  intros H. unfold decompose_segment. destruct (len t <=? M); [done|].
  by rewrite split_no_occurrence.
Qed.

Lemma separators_have_newline_or_space :
  Forall (λ sep : text, 10%N ∈ sep ∨ 32%N ∈ sep) separators.
Proof.
  unfold separators.
  repeat (apply List.Forall_cons;
          [cbv; first [left; repeat constructor; fail | right; repeat constructor; fail]|]).
  apply List.Forall_nil.
Qed.

Lemma decompose_no_separator (M : Z) (t : text) :
  lacks 10 t → lacks 32 t → decompose M t = [t].
Proof.
  intros Hnl Hsp. unfold decompose.
  assert (∀ seps, Forall (λ sep : text, 10%N ∈ sep ∨ 32%N ∈ sep) seps →
            foldl (λ segments sep, flat_map (decompose_segment M sep) segments)
                  [t] seps = [t]) as H; [|apply H, separators_have_newline_or_space].
  induction seps as [|sep seps IH]; intros Hs; [done|].
  inversion_clear Hs as [|? ? Hsep Hseps]. simpl.
  rewrite decompose_segment_no_occurrence; [by apply IH|].
  destruct Hsep; by eapply find_None_lacks.
Qed.

(** The number of slices, and which slices are full. *)
Lemma slice_count_lt (n m k : nat) :
  (1 ≤ m)%nat → (k < (n + m - 1) / m)%nat ↔ (k * m < n)%nat.
Proof.
  intros Hm. split; intros H.
  - pose proof (Nat.Div0.mul_div_le (n + m - 1) m). nia.
  - apply Nat.div_le_lower_bound; [lia|]. nia.
Qed.

Lemma fixed_slices_lookup (m : nat) (t : text) (k : nat) (c : text) :
  (1 ≤ m)%nat → fixed_slices m t !! k = Some c →
  c = take m (drop (k * m) t) ∧ (k * m < length t)%nat.
Proof.
  intros Hm. unfold fixed_slices. rewrite list_lookup_fmap.
  destruct (seq 0 ((length t + m - 1) / m) !! k) as [j|] eqn:E; [|done].
  apply lookup_seq in E as [-> Hk]. simpl. intros [= <-].
  split; [done|]. by apply slice_count_lt.
Qed.

Lemma fixed_slices_packed (m : nat) (t : text) :
  (1 ≤ m)%nat →
  Forall (λ c : text, c ≠ []) (fixed_slices m t)
  ∧ Forall (λ c, len c <= Z.of_nat m) (fixed_slices m t)
  ∧ neighbours_exceed (Z.of_nat m) (fixed_slices m t).
Proof.
  intros Hm. split; [|split].
  - apply Forall_lookup. intros k c Hk.
    apply fixed_slices_lookup in Hk as [-> Hlt]; [|done].
    intros E. apply (f_equal length) in E.
    rewrite length_take, length_drop in E. simpl in E. lia.
  - apply Forall_lookup. intros k c Hk.
    apply fixed_slices_lookup in Hk as [-> Hlt]; [|done].
    unfold len. rewrite length_take. lia.
  - intros k c1 c2 H1 H2.
    apply fixed_slices_lookup in H1 as [-> _]; [|done].
    apply fixed_slices_lookup in H2 as [-> Hlt]; [|done].
    unfold len. rewrite !length_take, !length_drop. simpl in Hlt. lia.
Qed.

Lemma hard_split_one (M : Z) (t : text) :
  1 <= M → t ≠ [] → hard_split M [t] = Some (fixed_slices (Z.to_nat M) t).
Proof.
  intros HM Ht. unfold hard_split. cbn [mapM]. unfold hard_split_segment.
  assert (0 < length t)%nat as Hlen by (destruct t; [done|simpl; lia]).
  destruct (Z.ltb_spec M (len t)) as [Hlt|Hge]; unfold len in *.
  - unfold Py.range. destruct (Z.eqb_spec M 0); [lia|]. simpl.
    rewrite app_nil_r. f_equal. unfold fixed_slices, Py.range_len.
    destruct (Z.ltb_spec 0 M); [|lia].
    destruct (Z.ltb_spec 0 (Z.of_nat (length t))); [|lia].
    rewrite Z.sub_0_r.
    assert (Z.to_nat ((Z.of_nat (length t) - 1) / M + 1)
            = ((length t + Z.to_nat M - 1) / Z.to_nat M)%nat) as ->.
    { replace (length t + Z.to_nat M - 1)%nat
        with (length t - 1 + 1 * Z.to_nat M)%nat by lia.
      rewrite Nat.div_add by lia.
      replace (Z.of_nat (length t) - 1) with (Z.of_nat (length t - 1)) by lia.
      replace M with (Z.of_nat (Z.to_nat M)) at 1 by lia.
      rewrite <- Nat2Z.inj_div. lia. }
    rewrite map_map. apply map_ext. intros k.
    apply (slice_step M HM t k).
  - simpl. f_equal. unfold fixed_slices.
    assert ((length t + Z.to_nat M - 1) / Z.to_nat M = 1)%nat as ->.
    { symmetry. apply Nat.div_unique with (r := (length t - 1)%nat); lia. }
    simpl. rewrite drop_0, take_ge by lia. done.
Qed.

(** X7. A text without newline and without space has no place to cut:
    for a limit [M] of at least 1 its chunks are its consecutive slices of
    [M] characters (the last one may be shorter). *)
Theorem no_separator_gives_fixed_slices (t : text) (M : Z) :
  1 <= M → lacks 10 t → lacks 32 t →
  split_text_into_chunks t M = Some (fixed_slices (Z.to_nat M) t).
Proof.
  intros HM Hnl Hsp. unfold split_text_into_chunks. destruct t as [|x t].
  - simpl. unfold fixed_slices. simpl.
    rewrite Nat.div_small by lia. done.
  - cbn [truthy]. rewrite decompose_no_separator by done.
    rewrite hard_split_one by done. simpl. f_equal.
    destruct (fixed_slices_packed (Z.to_nat M) (x :: t) ltac:(lia)) as (H1 & H2 & H3).
    rewrite Z2Nat.id in H2, H3 by lia. by apply merge_atoms_packed.
Qed.

Lemma no_separator_gives_fixed_slices_witness :
  split_text_into_chunks (lit "abcdefgh") 3 = Some (fixed_slices 3 (lit "abcdefgh")).
Proof.
  apply (no_separator_gives_fixed_slices (lit "abcdefgh") 3); [lia| |];
    unfold lacks; vm_compute; intros H;
    repeat (apply elem_of_cons in H as [H|H]; [discriminate H|]);
    by apply elem_of_nil in H.
Defined.

Lemma startswith_app_refl (p r : text) : Py.startswith (p ++ r) p = true.
Proof. induction p as [|a p IH]; [by destruct r|]. simpl. by rewrite N.eqb_refl. Qed.

(** The leftmost occurrence of a separator comes right after a text that
    lacks its first character. *)
Lemma find_after_prefix (c : N) (sep' p r : text) :
  lacks c p → Py.find (p ++ (c :: sep') ++ r) (c :: sep') = Some (length p).
Proof.
  unfold lacks. induction p as [|x p IH]; intros Hp.
  - cbn [app length]. rewrite find_cons.
    change (c :: sep' ++ r) with ((c :: sep') ++ r). by rewrite startswith_app_refl.
  - change ((x :: p) ++ (c :: sep') ++ r) with (x :: (p ++ (c :: sep') ++ r)).
    rewrite find_cons.
    destruct (Py.startswith (x :: p ++ (c :: sep') ++ r) (c :: sep')) eqn:E.
    + exfalso. simpl in E. apply andb_prop in E as [E _].
      apply N.eqb_eq in E as ->. apply Hp. left.
    + rewrite IH; [done|]. intros Hin. apply Hp. by right.
Qed.

Lemma decompose_pass_small (M : Z) (sep : text) (segments : list text) :
  Forall (λ s, len s <= M) segments →
  flat_map (decompose_segment M sep) segments = segments.
Proof.
  induction 1 as [|s l Hs Hl IH]; [done|]. simpl. rewrite IH.
  unfold decompose_segment. by destruct (Z.leb_spec (len s) M); [|lia].
Qed.

Lemma decompose_passes_small (M : Z) (seps segments : list text) :
  Forall (λ s, len s <= M) segments →
  foldl (λ segments sep, flat_map (decompose_segment M sep) segments) segments seps
  = segments.
Proof.
  intros H. induction seps as [|sep seps IH]; [done|].
  simpl. by rewrite decompose_pass_small.
Qed.

Lemma hard_split_small (M : Z) (segments : list text) :
  Forall (λ s, len s <= M) segments → hard_split M segments = Some segments.
Proof.
  unfold hard_split. induction 1 as [|s l Hs Hl IH]; [done|].
  assert (hard_split_segment M s = Some [s]) as Hseg.
  { unfold hard_split_segment. by destruct (Z.ltb_spec M (len s)); [lia|]. }
  cbn [mapM]. rewrite Hseg. simpl.
  destruct (mapM (hard_split_segment M) l) as [pieces|]; [|done].
  simpl in *. injection IH as IH. by rewrite IH.
Qed.

(** X8. Two paragraphs without newline inside, separated by a blank line,
    that do not fit together in one chunk but fit each on its own (the
    first with the blank line), are the two chunks; the blank line stays
    with the first. *)
Theorem two_paragraphs_two_chunks (p1 p2 : text) (M : Z) :
  lacks 10 p1 → lacks 10 p2 →
  len p1 + 2 <= M → len p2 <= M → M < len p1 + 2 + len p2 →
  split_text_into_chunks (p1 ++ nl ++ nl ++ p2) M = Some [p1 ++ nl ++ nl; p2].
Proof.
  intros H1 H2 Hl1 Hl2 Hover.
  assert (len (p1 ++ nl ++ nl ++ p2) = len p1 + 2 + len p2) as Hlen.
  { rewrite !len_app. unfold len. simpl. lia. }
  assert (len (p1 ++ nl ++ nl) = len p1 + 2) as Hlen1.
  { rewrite !len_app. unfold len. simpl. lia. }
  assert (p2 ≠ []) as Hp2.
  { intros ->. unfold len in *. simpl in *. lia. }
  assert (p1 ++ nl ++ nl ≠ []) as Hp1 by (by destruct p1).
  assert (Forall (λ s, len s <= M) [p1 ++ nl ++ nl; p2]) as Hsmall
    by (repeat apply List.Forall_cons; [lia|lia|apply List.Forall_nil]).
  assert (Py.split (p1 ++ nl ++ nl ++ p2) (nl ++ nl) = [p1; p2]) as Hparts.
  { rewrite split_unfold by done.
    change (p1 ++ nl ++ nl ++ p2) with (p1 ++ (10%N :: nl) ++ p2).
    change (nl ++ nl) with (10%N :: nl).
    rewrite find_after_prefix by done.
    rewrite take_app_length. f_equal.
    replace (drop (length p1 + length (10%N :: nl)) (p1 ++ (10%N :: nl) ++ p2)) with p2.
    - apply split_no_occurrence. apply (find_None_lacks p2 _ 10%N); [left|done].
    - rewrite drop_app_ge by lia.
      replace (length p1 + length (10%N :: nl) - length p1)%nat with 2%nat by (simpl; lia).
      done. }
  unfold split_text_into_chunks.
  assert (truthy (p1 ++ nl ++ nl ++ p2) = true) as -> by (by destruct p1).
  assert (decompose M (p1 ++ nl ++ nl ++ p2) = [p1 ++ nl ++ nl; p2]) as ->.
  { assert (decompose_segment M (nl ++ nl) (p1 ++ nl ++ nl ++ p2)
            = [p1 ++ nl ++ nl; p2]) as Hseg.
    { unfold decompose_segment.
      destruct (Z.leb_spec (len (p1 ++ nl ++ nl ++ p2)) M); [lia|].
      rewrite Hparts. done. }
    unfold decompose, separators.
    change (foldl ?f [?t] (?sep :: ?seps)) with (foldl f (f [t] sep) seps).
    cbn [flat_map]. rewrite Hseg.
    rewrite app_nil_r. by apply decompose_passes_small. }
  rewrite hard_split_small by exact Hsmall.
  change (Some (merge_atoms M [p1 ++ nl ++ nl; p2]) = Some [p1 ++ nl ++ nl; p2]).
  f_equal. apply merge_atoms_packed.
  - by repeat apply List.Forall_cons.
  - exact Hsmall.
  - intros [|[|k]] c1 c2 E1 E2; [|done|done].
    change (Some (p1 ++ nl ++ nl) = Some c1) in E1. change (Some p2 = Some c2) in E2.
    injection E1 as <-. injection E2 as <-.
    change (M < len (p1 ++ nl ++ nl) + len p2). rewrite Hlen1. lia.
Qed.

Lemma two_paragraphs_two_chunks_witness :
  split_text_into_chunks (lit "aaa" ++ nl ++ nl ++ lit "bbb") 6
  = Some [lit "aaa" ++ nl ++ nl; lit "bbb"].
Proof.
  apply (two_paragraphs_two_chunks (lit "aaa") (lit "bbb") 6).
  - unfold lacks. vm_compute. intros H.
    repeat (apply elem_of_cons in H as [H|H]; [discriminate H|]).
    by apply elem_of_nil in H.
  - unfold lacks. vm_compute. intros H.
    repeat (apply elem_of_cons in H as [H|H]; [discriminate H|]).
    by apply elem_of_nil in H.
  - vm_compute. discriminate.
  - vm_compute. discriminate.
  - vm_compute. reflexivity.
Defined.

(** * Further properties of the prompt builder *)

Lemma create_formatted_prompt_app (source_lang target_lang t : text) :
  create_formatted_prompt source_lang target_lang t
  = (if bool_decide (source_lang = lit "Auto Detect")
     then auto_detect_header target_lang
     else translator_header source_lang target_lang) ++ t.
Proof.
  unfold create_formatted_prompt, auto_detect_header, translator_header.
  destruct (bool_decide (source_lang = lit "Auto Detect")); by rewrite <- !app_assoc.
Qed.

(** X9. For a given pair of languages the prompt determines the chunk: two
    chunks with the same prompt are the same chunk. *)
Theorem prompt_determines_chunk (source_lang target_lang t1 t2 : text) :
  create_formatted_prompt source_lang target_lang t1
  = create_formatted_prompt source_lang target_lang t2 →
  t1 = t2.
Proof. rewrite !create_formatted_prompt_app. apply app_inv_head. Qed.

Lemma prompt_determines_chunk_witness : lit "aa " = lit "aa ".
Proof.
  apply (prompt_determines_chunk (lit "English") (lit "Korean") (lit "aa ") (lit "aa ")).
  reflexivity.
Defined.

(** X10. The instructions cost the same for every chunk: a prompt is as
    long as the prompt of the empty chunk plus the chunk, so for a limit
    [M] of at least 1 no prompt built from a chunk of the chunker is
    longer than that overhead plus [M]. *)
Theorem prompt_length_is_bounded (source_lang target_lang t : text) (M : Z)
    (chunks : list text) (c : text) :
  1 <= M → split_text_into_chunks t M = Some chunks → c ∈ chunks →
  len (create_formatted_prompt source_lang target_lang c)
  = len (create_formatted_prompt source_lang target_lang []) + len c
  ∧ len (create_formatted_prompt source_lang target_lang c)
    <= len (create_formatted_prompt source_lang target_lang []) + M.
Proof.
  intros HM Hsplit Hc.
  destruct (split_text_into_chunks_spec t M HM) as (chunks' & E & _ & Hb & _).
  rewrite Hsplit in E. injection E as <-.
  rewrite Forall_forall in Hb. specialize (Hb c Hc).
  rewrite !create_formatted_prompt_app, !len_app.
  replace (len []) with 0 by done. lia.
Qed.

Lemma prompt_length_is_bounded_witness :
  len (create_formatted_prompt (lit "English") (lit "Korean") (lit "bb "))
  = len (create_formatted_prompt (lit "English") (lit "Korean") []) + len (lit "bb ")
  ∧ len (create_formatted_prompt (lit "English") (lit "Korean") (lit "bb "))
    <= len (create_formatted_prompt (lit "English") (lit "Korean") []) + 3.
Proof.
  apply (prompt_length_is_bounded (lit "English") (lit "Korean") (lit "aa bb cc") 3
           [lit "aa "; lit "bb "; lit "cc"]).
  - lia.
  - vm_compute. reflexivity.
  - right. left.
Defined.


(** * Further properties of the streaming driver *)

Section StreamingRuns.

Context {Temp : Type}.
Variables (svc : client Temp) (source_lang target_lang model_name : text)
          (temperature : Temp) (base_url : text) (total_chunks : nat).

Local Abbreviation sreq := (stream_request source_lang target_lang model_name temperature).
Local Abbreviation sloop :=
  (stream_chunks svc source_lang target_lang model_name temperature base_url total_chunks).
Local Abbreviation sdone :=
  (stream_completed svc source_lang target_lang model_name temperature).





End StreamingRuns.

(** X12. In streaming mode, when no call fails, every chunk is requested
    once, in order, and the last thing shown is all the translations, each
    followed by a blank line, with the label [Completed N of N chunks.]. *)
Theorem streaming_success {Temp : Type} (svc : client Temp)
    (t source_lang target_lang model_name : text) (temperature : Temp)
    (base_url : text) (M : Z) (chunks : list text) :
  split_text_into_chunks t M = Some chunks →
  chunks ≠ [] →
  (∀ j c, chunks !! j = Some c →
          stream_failure (complete_streaming svc j
            (stream_request source_lang target_lang model_name temperature c)) = None) →
  let run := translate_streaming svc t source_lang target_lang model_name temperature
                                 base_url M in
  requests_of run
  = map (stream_request source_lang target_lang model_name temperature) chunks
  ∧ last run
    = Some (Yield (stream_completed svc source_lang target_lang model_name temperature
                                    0 chunks)
                  (completed_label (length chunks) (length chunks - 1))).
Proof.
  intros Hsplit Hne Hok run. unfold run, translate_streaming.
  destruct t as [|x t]; [by injection Hsplit as <-|].
  cbn [truthy]. rewrite Hsplit. split.
  - apply stream_chunks_ok_requests. intros j c Hj. by apply Hok.
  - destruct chunks as [|c0 l _] using rev_ind; [done|].
    rewrite stream_chunks_ok_last by (intros j c Hj; by apply Hok).
    rewrite length_app. simpl. do 3 f_equal. lia.
Qed.

Lemma streaming_success_witness :
  let run := translate_streaming answers_X (lit "aa bb cc") (lit "English") (lit "Korean")
               (lit "translategemma-12b-it") sample_temperature
               (lit "http://localhost:1234/v1") 3 in
  requests_of run
  = map (stream_request (lit "English") (lit "Korean") (lit "translategemma-12b-it")
                        sample_temperature)
        [lit "aa "; lit "bb "; lit "cc"]
  ∧ last run
    = Some (Yield ((lit "X" ++ nl ++ nl) ++ (lit "X" ++ nl ++ nl) ++ (lit "X" ++ nl ++ nl))
                  (lit "Completed 3 of 3 chunks.")).
Proof.
  intros run.
  apply (streaming_success answers_X (lit "aa bb cc") (lit "English") (lit "Korean")
           (lit "translategemma-12b-it") sample_temperature
           (lit "http://localhost:1234/v1") 3 [lit "aa "; lit "bb "; lit "cc"]).
  - vm_compute. reflexivity.
  - discriminate.
  - intros j c Hj. reflexivity.
Defined.



(** X14. With the limit 0 and a non-empty text the streaming generator
    shows nothing and sends nothing: the [except] clause, entered for the
    [ValueError] of the chunker, reads [full_translation] before it is
    assigned, and that [UnboundLocalError] leaves the generator. *)
Theorem streaming_zero_limit_crashes {Temp : Type} (svc : client Temp)
    (t source_lang target_lang model_name : text) (temperature : Temp)
    (base_url : text) :
  t ≠ [] →
  translate_streaming svc t source_lang target_lang model_name temperature base_url 0
  = [Uncaught UnboundLocalError].
Proof.
  intros Ht. unfold translate_streaming. rewrite split_zero by done.
  by destruct t.
Qed.

Lemma streaming_zero_limit_crashes_witness :
  translate_streaming answers_X (lit "hi") (lit "English") (lit "Korean")
    (lit "translategemma-12b-it") sample_temperature (lit "http://localhost:1234/v1") 0
  = [Uncaught UnboundLocalError].
Proof. apply (streaming_zero_limit_crashes answers_X). discriminate. Defined.

(** X15. With a negative limit and a non-empty text the streaming
    generator ends at once: it yields nothing, requests nothing, raises
    nothing. *)
Theorem streaming_negative_limit_is_silent {Temp : Type} (svc : client Temp)
    (t source_lang target_lang model_name : text) (temperature : Temp)
    (base_url : text) (M : Z) :
  t ≠ [] → M < 0 →
  translate_streaming svc t source_lang target_lang model_name temperature base_url M
  = [].
Proof.
  intros Ht HM. unfold translate_streaming. rewrite split_negative by done.
  by destruct t.
Qed.

Lemma streaming_negative_limit_is_silent_witness :
  translate_streaming answers_X (lit "hi") (lit "English") (lit "Korean")
    (lit "translategemma-12b-it") sample_temperature (lit "http://localhost:1234/v1") (-5)
  = [].
Proof. apply (streaming_negative_limit_is_silent answers_X); [discriminate|lia]. Defined.



(** * Further properties of the batch driver *)

Section GrowingViews.

Lemma grows_cons (a b : text) (l : list text) :
  a `prefix_of` b → grows (b :: l) → grows (a :: b :: l).
Proof.
  intros Hab Hl [|k] x y Hx Hy.
  - injection Hx as <-. injection Hy as <-. done.
  - by apply (Hl k).
Qed.

Lemma grows_tail (a : text) (l : list text) : grows (a :: l) → grows l.
Proof. intros H k x y Hx Hy. by apply (H (S k)). Qed.

Lemma grows_init (l : list text) (a : text) : grows (l ++ [a]) → grows l.
Proof.
  intros H k x y Hx Hy. apply (H k); by apply lookup_app_l_Some.
Qed.

Lemma grows_two (a b : text) : a `prefix_of` b → grows [a; b].
Proof.
  intros Hab. apply grows_cons; [done|]. intros [|k] x y Hx Hy; done.
Qed.

(** Two growing lists meet where the first ends at the head of the
    second. *)
Lemma grows_app (l r : list text) (a : text) :
  grows (l ++ [a]) → grows (a :: r) → grows (l ++ a :: r).
Proof.
  intros Hl Hr. induction l as [|x l IH]; [done|].
  destruct l as [|y l].
  - simpl in *. apply grows_cons; [|done]. by apply (Hl 0%nat).
  - simpl in *. apply grows_cons; [by apply (Hl 0%nat)|].
    apply IH. by apply grows_tail in Hl.
Qed.

(** The last text of a growing list may be replaced by a longer one. *)
Lemma grows_extend_last (l : list text) (a b : text) :
  grows (l ++ [a]) → a `prefix_of` b → grows (l ++ [b]).
Proof.
  intros Hl Hab. induction l as [|x l IH].
  - intros [|k] u v Hu Hv; done.
  - destruct l as [|y l].
    + simpl in *. apply grows_two. trans a; [by apply (Hl 0%nat)|done].
    + simpl in *. apply grows_cons; [by apply (Hl 0%nat)|].
      apply IH. by apply grows_tail in Hl.
Qed.

End GrowingViews.

Section BatchRuns.

Context {Temp : Type}.
Variables (svc : client Temp) (source_lang target_lang model_name : text)
          (temperature : Temp).

Local Abbreviation freq := (batch_request source_lang target_lang model_name temperature).
Local Abbreviation floop :=
  (file_chunks svc source_lang target_lang model_name temperature).
Local Abbreviation fdone :=
  (batch_completed svc source_lang target_lang model_name temperature).


(** From the text accumulated before the loop to the text accumulated
    after it, through every preview, the text only grows. *)
Lemma file_chunks_grows (chunks : list text) (i : nat) (full : text) :
  grows (full :: outputs_of (floop i full chunks).2 ++ [(floop i full chunks).1]).
Proof.
  revert i full. induction chunks as [|chunk chunks IH]; intros i full; simpl.
  - by apply grows_two.
  - specialize (IH (S i) (full ++ batch_piece svc source_lang target_lang model_name
                                              temperature i chunk)).
    destruct (floop (S i) _ chunks) as [final events]. simpl in *.
    change (outputs_of (Request ?r :: YieldFile ?a ?b :: ?l)) with (a :: outputs_of l).
    apply grows_cons; [|done]. by apply prefix_app_r.
Qed.

End BatchRuns.





(** X19. In batch mode the previews only grow: after the starting
    message, every text yielded begins with the text yielded before it,
    whatever the service does and whether or not the write succeeds. *)
Theorem batch_previews_grow {Temp : Type} (fs : filesystem) (os : os_path)
    (svc : client Temp) (file_obj : file_arg)
    (file_path t source_lang target_lang model_name : text) (temperature : Temp)
    (M : Z) (chunks : list text) :
  file_obj = FilePath file_path ∨ file_obj = FileNamed file_path →
  read_text fs file_path = inl t →
  split_text_into_chunks t M = Some chunks →
  grows (drop 1 (outputs_of (translate_file_process fs os svc file_obj source_lang
                               target_lang model_name temperature M))).
Proof.
  intros Hobj Hread Hsplit.
  rewrite (translate_file_run svc source_lang target_lang model_name temperature
             fs os file_obj file_path t M chunks Hobj Hread Hsplit).
  change (outputs_of (YieldFile ?a ?b :: ?l)) with (a :: outputs_of l).
  rewrite outputs_of_app. simpl drop.
  pose proof (file_chunks_grows svc source_lang target_lang model_name temperature
                chunks 0 []) as Hg.
  rewrite file_chunks_final in Hg. simpl in Hg. apply grows_tail in Hg.
  destruct (write_text fs _ _); simpl.
  - rewrite app_nil_r. by apply grows_init in Hg.
  - exact Hg.
Qed.

Lemma batch_previews_grow_witness :
  grows (drop 1 (outputs_of (translate_file_process (reads_as (lit "aa bb cc"))
                               bare_names fails_second (FilePath (lit "notes"))
                               (lit "English") (lit "Korean")
                               (lit "translategemma-12b-it") sample_temperature 3))).
Proof.
  apply (batch_previews_grow (reads_as (lit "aa bb cc")) bare_names fails_second
           (FilePath (lit "notes")) (lit "notes") (lit "aa bb cc") (lit "English")
           (lit "Korean") (lit "translategemma-12b-it") sample_temperature 3
           [lit "aa "; lit "bb "; lit "cc"]).
  - left. reflexivity.
  - reflexivity.
  - vm_compute. reflexivity.
Defined.

(** X20. In batch mode, with the limit 0 and a non-empty file, the
    [ValueError] of the chunker leaves the generator before anything is
    yielded, requested or written. *)
Theorem batch_zero_limit_crashes {Temp : Type} (fs : filesystem) (os : os_path)
    (svc : client Temp) (file_obj : file_arg)
    (file_path t source_lang target_lang model_name : text) (temperature : Temp) :
  file_obj = FilePath file_path ∨ file_obj = FileNamed file_path →
  read_text fs file_path = inl t →
  t ≠ [] →
  translate_file_process fs os svc file_obj source_lang target_lang model_name
                         temperature 0
  = [Uncaught ValueError].
Proof.
  intros Hobj Hread Ht.
  assert (translate_file_process fs os svc file_obj source_lang target_lang model_name
            temperature 0
          = translate_file_from_path svc source_lang target_lang model_name temperature
              fs os file_path 0) as -> by (by destruct Hobj as [-> | ->]).
  unfold translate_file_from_path. by rewrite Hread, split_zero.
Qed.

Lemma batch_zero_limit_crashes_witness :
  translate_file_process (reads_as (lit "aa bb cc")) bare_names fails_second
    (FileNamed (lit "notes")) (lit "English") (lit "Korean")
    (lit "translategemma-12b-it") sample_temperature 0
  = [Uncaught ValueError].
Proof.
  apply (batch_zero_limit_crashes (reads_as (lit "aa bb cc")) bare_names fails_second
           (FileNamed (lit "notes")) (lit "notes") (lit "aa bb cc")).
  - right. reflexivity.
  - reflexivity.
  - discriminate.
Defined.

(** X21. In batch mode an empty file, or any file with a negative limit,
    gives no chunk: the driver announces 0 chunks, sends no request, and
    (the write succeeding) writes an empty output file and yields its
    path. *)
Theorem batch_nothing_to_translate {Temp : Type} (fs : filesystem) (os : os_path)
    (svc : client Temp) (file_obj : file_arg)
    (file_path t source_lang target_lang model_name : text) (temperature : Temp)
    (M : Z) :
  file_obj = FilePath file_path ∨ file_obj = FileNamed file_path →
  read_text fs file_path = inl t →
  t = [] ∨ M < 0 →
  write_text fs (output_path_of os file_path) [] = None →
  translate_file_process fs os svc file_obj source_lang target_lang model_name
                         temperature M
  = [YieldFile (lit "Starting translation of 0 chunks...") None;
     WriteFile (output_path_of os file_path) [];
     YieldFile [] (Some (output_path_of os file_path))].
Proof.
  intros Hobj Hread Hcase Hwrite.
  assert (split_text_into_chunks t M = Some []) as Hsplit.
  { destruct Hcase as [-> | HM]; [done|by apply split_negative]. }
  rewrite (translate_file_run svc source_lang target_lang model_name temperature
             fs os file_obj file_path t M [] Hobj Hread Hsplit).
  simpl. by rewrite Hwrite.
Qed.

Lemma batch_nothing_to_translate_witness :
  translate_file_process (reads_as (lit "aa bb cc")) bare_names fails_second
    (FilePath (lit "notes")) (lit "English") (lit "Korean")
    (lit "translategemma-12b-it") sample_temperature (-1)
  = [YieldFile (lit "Starting translation of 0 chunks...") None;
     WriteFile (output_path_of bare_names (lit "notes")) [];
     YieldFile [] (Some (output_path_of bare_names (lit "notes")))].
Proof.
  apply (batch_nothing_to_translate (reads_as (lit "aa bb cc")) bare_names fails_second
           (FilePath (lit "notes")) (lit "notes") (lit "aa bb cc")).
  - left. reflexivity.
  - reflexivity.
  - right. lia.
  - reflexivity.
Defined.

(** * The views of the streaming driver only grow *)

Section StreamingViews.

Context {Temp : Type}.
Variables (svc : client Temp) (source_lang target_lang model_name : text)
          (temperature : Temp) (base_url : text) (total_chunks : nat).

Local Abbreviation vreq := (stream_request source_lang target_lang model_name temperature).
Local Abbreviation vloop :=
  (stream_chunks svc source_lang target_lang model_name temperature base_url total_chunks).

(** Within one chunk: from the text accumulated before the chunk, through
    every view, to that text followed by the whole translation. *)
Lemma consume_stream_grows (full progress acc : text) (deltas : list (option text)) :
  grows ((full ++ acc)
         :: outputs_of (consume_stream (Temp:=Temp) full progress acc deltas).2
         ++ [full ++ (consume_stream (Temp:=Temp) full progress acc deltas).1]).
Proof.
  revert acc. induction deltas as [|[content|] deltas IH]; intros acc; simpl.
  - by apply grows_two.
  - specialize (IH (acc ++ content)).
    destruct (consume_stream full progress (acc ++ content) deltas) as [final views].
    simpl in *. change (outputs_of (Yield ?a ?b :: ?l)) with (a :: outputs_of l).
    apply grows_cons; [|done]. apply prefix_app. by apply prefix_app_r.
  - apply IH.
Qed.

Lemma outputs_of_chunk_ok (views rest : list (event Temp)) (r : request Temp)
    (full label : text) :
  outputs_of (Request r :: views ++ Yield full label :: rest)
  = outputs_of views ++ full :: outputs_of rest.
Proof.
  change (outputs_of (Request r :: ?l)) with (outputs_of l).
  by rewrite outputs_of_app.
Qed.

Lemma outputs_of_chunk_failed (views : list (event Temp)) (r : request Temp)
    (full : text) (i : nat) (e : text) :
  outputs_of (Request r :: views ++ [stream_error_view base_url full i e])
  = outputs_of views ++ [full ++ stream_error_marker base_url i e].
Proof.
  change (outputs_of (Request r :: ?l)) with (outputs_of l).
  by rewrite outputs_of_app.
Qed.

(** Up to the last view, whatever the service does. *)
Lemma stream_chunks_grows_init (chunks : list text) (i : nat) (full : text) :
  grows (full :: removelast (outputs_of (vloop i full chunks))).
Proof.
  revert i full. induction chunks as [|chunk chunks IH]; intros i full.
  - intros [|k] a b Ha Hb; done.
  - cbn [stream_chunks].
    destruct (complete_streaming svc i (vreq chunk)) as [e|deltas ending].
    + intros [|k] a b Ha Hb; done.
    + pose proof (consume_stream_grows full (processing_label total_chunks i) [] deltas) as Hg.
      destruct (consume_stream _ _ _ deltas) as [acc views]. simpl in Hg.
      rewrite app_nil_r in Hg. destruct ending as [e|].
      * rewrite outputs_of_chunk_failed, removelast_last.
        by apply (grows_init (full :: outputs_of views)) in Hg.
      * rewrite outputs_of_chunk_ok.
        rewrite removelast_app by done.
        specialize (IH (S i) (full ++ acc ++ nl ++ nl)).
        destruct (outputs_of (vloop (S i) (full ++ acc ++ nl ++ nl) chunks))
          as [|o outs] eqn:E.
        -- simpl. rewrite app_nil_r.
           by apply (grows_init (full :: outputs_of views)) in Hg.
        -- change (removelast ((full ++ acc ++ nl ++ nl) :: o :: outs))
             with ((full ++ acc ++ nl ++ nl) :: removelast (o :: outs)).
           apply (grows_app (full :: outputs_of views)); [|done].
           apply (grows_extend_last (full :: outputs_of views) (full ++ acc)); [done|].
           apply prefix_app. by apply prefix_app_r.
Qed.

(** To the very end, when no call fails. *)
Lemma stream_chunks_grows_ok (chunks : list text) (i : nat) (full : text) :
  (∀ j c, chunks !! j = Some c →
          stream_failure (complete_streaming svc (i + j)%nat (vreq c)) = None) →
  grows (full :: outputs_of (vloop i full chunks)).
Proof.
  revert i full. induction chunks as [|chunk chunks IH]; intros i full Hok.
  - intros [|k] a b Ha Hb; done.
  - pose proof (Hok 0%nat chunk eq_refl) as H0. rewrite Nat.add_0_r in H0.
    cbn [stream_chunks].
    destruct (complete_streaming svc i (vreq chunk)) as [e|deltas [e|]]; [done..|].
    pose proof (consume_stream_grows full (processing_label total_chunks i) [] deltas) as Hg.
    destruct (consume_stream _ _ _ deltas) as [acc views]. simpl in Hg.
    rewrite app_nil_r in Hg. rewrite outputs_of_chunk_ok.
    apply (grows_app (full :: outputs_of views)).
    + apply (grows_extend_last (full :: outputs_of views) (full ++ acc)); [done|].
      apply prefix_app. by apply prefix_app_r.
    + apply IH. intros j c Hj. specialize (Hok (S j) c Hj).
      by replace (S i + j)%nat with (i + S j)%nat by lia.
Qed.

End StreamingViews.

(** X22. In streaming mode the text shown only grows: whatever the
    service does, every view but the last begins with the view before it
    (the last one may be the error view, which drops the partial chunk);
    and when no call fails the last view too. *)
Theorem streaming_views_grow {Temp : Type} (svc : client Temp)
    (t source_lang target_lang model_name : text) (temperature : Temp)
    (base_url : text) (M : Z) (chunks : list text) :
  split_text_into_chunks t M = Some chunks →
  let run := translate_streaming svc t source_lang target_lang model_name temperature
                                 base_url M in
  grows (removelast (outputs_of run))
  ∧ ((∀ j c, chunks !! j = Some c →
             stream_failure (complete_streaming svc j
               (stream_request source_lang target_lang model_name temperature c)) = None) →
     grows (outputs_of run)).
Proof.
  intros Hsplit run. unfold run, translate_streaming.
  destruct (truthy t).
  - rewrite Hsplit. split.
    + eapply grows_tail. apply stream_chunks_grows_init.
    + intros Hok. eapply grows_tail. apply stream_chunks_grows_ok.
      intros j c Hj. by apply Hok.
  - split; [|intros _]; intros [|k] a b Ha Hb; done.
Qed.

Lemma streaming_views_grow_witness :
  let run := translate_streaming breaks_midstream (lit "aa bb cc") (lit "English")
               (lit "Korean") (lit "translategemma-12b-it") sample_temperature
               (lit "http://localhost:1234/v1") 3 in
  grows (removelast (outputs_of run))
  ∧ outputs_of run !! 3%nat = Some ((lit "Hello" ++ nl ++ nl) ++ lit "par")
  ∧ outputs_of run !! 4%nat = Some ((lit "Hello" ++ nl ++ nl) ++ lit "partial").
Proof.
  intros run.
  destruct (streaming_views_grow breaks_midstream (lit "aa bb cc") (lit "English")
              (lit "Korean") (lit "translategemma-12b-it") sample_temperature
              (lit "http://localhost:1234/v1") 3 [lit "aa "; lit "bb "; lit "cc"])
    as [Hgrow _].
  - vm_compute. reflexivity.
  - split; [exact Hgrow|]. split; reflexivity.
Defined.

(** * The decomposition alone *)

(** X23. The top-down decomposition loses and adds nothing, for every
    text and every limit (also 0 and negative ones): the segments it
    leaves, put together in order, are the text. *)
Theorem decomposition_is_lossless (t : text) (M : Z) :
  concat (decompose M t) = t.
Proof. apply decompose_concat. Qed.
